(** * Python-MAS: pollution dynamics on a bounded grid

    A shallow embedding of [agents.py]: the four agent classes
    ([PollutionCell], [CarAgent], [FactoryAgent], [TreeAgent]), the model
    class [PollutionModel] and the parts of Mesa the model drives
    ([MultiGrid], [SimultaneousActivation], [DataCollector], the model's
    random generator).

    Conventions of the embedding.
    - Python integers are [Z]; list lengths and tick counts are [nat].
    - [pollution] is a Python number (the integer 0 at creation, a float
      after the first division).  It is embedded as an exact rational
      [Q]: 0.9 is [9 # 10], 0.7 is [7 # 10]; rounding is not modelled.
    - All agents live in one store, the scheduler's ordered dictionary,
      embedded as the list [schedule] in registration order.  An agent is
      referred to by its index in that list; the grid's cell contents are
      the agents of the store whose [pos] is that cell, so that a write
      through a cell's content list is a write to the store.
    - Exceptions are the error side of [Result].
    - The random generator is an oracle (a stream of naturals) together
      with the number of draws made so far. *)

From Stdlib Require Import ZArith QArith Lia Lqa.
From stdpp Require Import base decidable option list strings gmap.

(** ** Exceptions *)

Inductive Error := ValueError | IndexError | Exception.

Inductive Result (A : Type) :=
| Ok (a : A)
| Raise (e : Error).
Arguments Ok {A} a.
Arguments Raise {A} e.

#[global] Instance Result_ret : MRet Result := @Ok.
#[global] Instance Result_bind : MBind Result :=
  λ A B f c, match c with Ok a => f a | Raise e => Raise e end.

(** ** Data *)

Definition Position : Type := Z * Z.

Inductive Agent :=
| PollutionCell (pos : Position) (pollution : Q)
| CarAgent (unique_id : Z) (pos : Position)
| FactoryAgent (unique_id : Z) (pos : Position)
| TreeAgent (unique_id : Z) (pos : Position) (alive : bool).

Definition agent_pos (a : Agent) : Position :=
  match a with
  | PollutionCell pos _ => pos
  | CarAgent _ pos => pos
  | FactoryAgent _ pos => pos
  | TreeAgent _ pos _ => pos
  end.

(** The key under which the scheduler registers an agent: its
    [unique_id], which is the position for a cell and an integer for the
    other agents. *)
Inductive Key :=
| PosKey (pos : Position)
| IdKey (id : Z).

Definition unique_id (a : Agent) : Key :=
  match a with
  | PollutionCell pos _ => PosKey pos
  | CarAgent id _ => IdKey id
  | FactoryAgent id _ => IdKey id
  | TreeAgent id _ _ => IdKey id
  end.

#[global] Instance Key_eq_dec : EqDecision Key.
Proof. solve_decision. Defined.

(** One row of the data collector's [model_vars]: the value of each of the
    three model reporters at one call of [collect]. *)
Record Sample := {
  Average_Pollution : Q;
  Tree_Growth_Rate : nat;
  Tree_Death_Rate : nat }.

Record Random := {
  oracle : nat → nat;
  drawn : nat }.

Record PollutionModel := {
  width : Z;
  height : Z;
  schedule : list Agent;
  steps : nat;
  random : Random;
  datacollector : list Sample }.

Definition set_schedule (s : list Agent) (m : PollutionModel) : PollutionModel :=
  {| width := width m; height := height m; schedule := s; steps := steps m;
     random := random m; datacollector := datacollector m |}.

Definition set_random (r : Random) (m : PollutionModel) : PollutionModel :=
  {| width := width m; height := height m; schedule := schedule m;
     steps := steps m; random := r; datacollector := datacollector m |}.

(** ** Python built-ins and the random generator *)

(** [range(n)]: empty when [n <= 0]. *)
Definition range (n : Z) : list Z := Z.of_nat <$> seq 0 (Z.to_nat n).

(** [range(lo, hi)]. *)
Definition range_from (lo hi : Z) : list Z := (λ k, lo + k)%Z <$> range (hi - lo).

(** [sum(l)]: a left fold starting from 0. *)
Definition sum (l : list Q) : Q := foldl Qplus 0%Q l.

(** [p > q] on numbers. *)
Definition Qgtb (p q : Q) : bool :=
  match (p ?= q)%Q with Gt => true | _ => false end.

(** [_randbelow(n)] for [0 < n]: the next draw of the oracle, below [n]. *)
Definition randbelow (n : nat) (r : Random) : nat * Random :=
  (oracle r (drawn r) mod n, {| oracle := oracle r; drawn := S (drawn r) |}).

(** [random.randrange(stop)]: raises [ValueError] on an empty range. *)
Definition randrange (stop : Z) (r : Random) : Result (Z * Random) :=
  if (0 <? stop)%Z
  then let (k, r') := randbelow (Z.to_nat stop) r in Ok (Z.of_nat k, r')
  else Raise ValueError.

(** [random.choice(seq)]: raises [IndexError] on an empty sequence,
    otherwise returns [seq[_randbelow(len(seq))]]. *)
Definition choice {A} (l : list A) (r : Random) : Result (A * Random) :=
  match l with
  | [] => Raise IndexError
  | _ =>
      let (k, r') := randbelow (length l) r in
      match l !! k with
      | Some a => Ok (a, r')
      | None => Raise IndexError
      end
  end.

(** ** mesa.space.MultiGrid, with [torus=False] *)

Module MultiGrid.

(** [get_neighborhood(pos, moore=True, include_center=False)] with the
    default radius 1: the positions of the 3x3 block around [pos] clipped
    to the grid, without [pos] itself. *)
Definition get_neighborhood (w h : Z) (pos : Position) : list Position :=
  let block :=
    new_x ← range_from (Z.max 0 (pos.1 - 1)) (Z.min w (pos.1 + 2));
    new_y ← range_from (Z.max 0 (pos.2 - 1)) (Z.min h (pos.2 + 2));
    [(new_x, new_y)] in
  filter (λ p, p ≠ pos) block.

(** [get_cell_list_contents(pos)]: the agents placed in that cell. *)
Definition get_cell_list_contents (s : list Agent) (pos : Position) : list Agent :=
  filter (λ a, agent_pos a = pos) s.

End MultiGrid.

(** The pollution of the [PollutionCell]s found in a cell:
    [[agent.pollution for agent in get_cell_list_contents(pos)
      if isinstance(agent, PollutionCell)]]. *)
Definition cell_pollution (s : list Agent) (pos : Position) : list Q :=
  a ← MultiGrid.get_cell_list_contents s pos;
  match a with PollutionCell _ v => [v] | _ => [] end.

(** The loop
    [for agent in get_cell_list_contents(pos):
       if isinstance(agent, PollutionCell): agent.pollution = f(agent.pollution)]
    as a write to the store. *)
Definition update_cells_at (pos : Position) (f : Q → Q) (s : list Agent) : list Agent :=
  (λ a, match a with
        | PollutionCell p v => if decide (p = pos) then PollutionCell p (f v) else a
        | _ => a
        end) <$> s.

(** ** The agent classes *)

Module PollutionCell.

(** [step] of the cell stored at index [i], whose fields are [pos] and
    [pollution].  The neighbours are read from the store as it is now.
    The sum and the division are exact here, where Python rounds to the
    nearest double. *)
Definition step (i : nat) (pos : Position) (pollution : Q) (m : PollutionModel)
  : PollutionModel :=
  let neighbors := MultiGrid.get_neighborhood (width m) (height m) pos in
  let total_pollution :=
    (sum (neighbor ← neighbors; cell_pollution (schedule m) neighbor) + pollution)%Q in
  let new := (total_pollution / inject_Z (Z.of_nat (length neighbors) + 1))%Q in
  set_schedule (<[i := PollutionCell pos new]> (schedule m)) m.

Definition advance (i : nat) (pos : Position) (pollution : Q) (m : PollutionModel)
  : PollutionModel :=
  set_schedule (<[i := PollutionCell pos (pollution * (9 # 10))%Q]> (schedule m)) m.

End PollutionCell.

Module CarAgent.

Definition step (i : nat) (unique_id : Z) (pos : Position) (m : PollutionModel)
  : Result PollutionModel :=
  let next_moves := MultiGrid.get_neighborhood (width m) (height m) pos in
  '(new_position, r) ← choice next_moves (random m);
  (* grid.move_agent(self, new_position) *)
  let moved := <[i := CarAgent unique_id new_position]> (schedule m) in
  Ok (set_random r
        (set_schedule (update_cells_at new_position (λ v, v + 10)%Q moved) m)).

End CarAgent.

Module FactoryAgent.

Definition step (i : nat) (unique_id : Z) (pos : Position) (m : PollutionModel)
  : PollutionModel :=
  set_schedule (update_cells_at pos (λ v, v + 20)%Q (schedule m)) m.

End FactoryAgent.

Module TreeAgent.

Definition step (i : nat) (unique_id : Z) (pos : Position) (alive : bool)
    (m : PollutionModel) : PollutionModel :=
  if alive then
    let reduced := update_cells_at pos (λ v, v * (7 # 10))%Q (schedule m) in
    let alive' :=
      foldl (λ still v, if Qgtb v 30 then false else still) true
            (cell_pollution reduced pos) in
    set_schedule (<[i := TreeAgent unique_id pos alive']> reduced) m
  else m.

End TreeAgent.

(** Method dispatch on the agent stored at index [i].  [CarAgent],
    [FactoryAgent] and [TreeAgent] inherit [advance] from [mesa.Agent],
    where it does nothing. *)
Definition agent_step (i : nat) (m : PollutionModel) : Result PollutionModel :=
  match schedule m !! i with
  | Some (PollutionCell pos v) => Ok (PollutionCell.step i pos v m)
  | Some (CarAgent id pos) => CarAgent.step i id pos m
  | Some (FactoryAgent id pos) => Ok (FactoryAgent.step i id pos m)
  | Some (TreeAgent id pos alive) => Ok (TreeAgent.step i id pos alive m)
  | None => Ok m
  end.

Definition agent_advance (i : nat) (m : PollutionModel) : PollutionModel :=
  match schedule m !! i with
  | Some (PollutionCell pos v) => PollutionCell.advance i pos v m
  | _ => m
  end.

(** ** mesa.time.SimultaneousActivation *)

Fixpoint run_steps (agent_keys : list nat) (m : PollutionModel)
  : Result PollutionModel :=
  match agent_keys with
  | [] => Ok m
  | k :: keys => m' ← agent_step k m; run_steps keys m'
  end.

Definition run_advances (agent_keys : list nat) (m : PollutionModel)
  : PollutionModel :=
  foldl (λ m' k, agent_advance k m') m agent_keys.

Module SimultaneousActivation.

(** [step]: every agent's [step] in registration order, then every agent's
    [advance] in registration order, then the step counter. *)
Definition step (m : PollutionModel) : Result PollutionModel :=
  m1 ← run_steps (seq 0 (length (schedule m))) m;
  let m2 := run_advances (seq 0 (length (schedule m1))) m1 in
  Ok {| width := width m2; height := height m2; schedule := schedule m2;
        steps := S (steps m2); random := random m2;
        datacollector := datacollector m2 |}.

End SimultaneousActivation.

(** ** mesa.datacollection.DataCollector and the model class *)

Module PollutionModel.

(** The population loop of [__init__]: one agent per identifier, placed at
    a position drawn coordinate by coordinate (x first) and registered
    with the scheduler.  [schedule.add] raises [Exception] when the
    agent's [unique_id] is already registered. *)
Definition add_agent (w h : Z) (mk : Position → Agent)
    (st : list Agent * Random) : Result (list Agent * Random) :=
  '(x, r1) ← randrange w st.2;
  '(y, r2) ← randrange h r1;
  if decide (unique_id (mk (x, y)) ∈ unique_id <$> st.1)
  then Raise Exception
  else Ok (st.1 ++ [mk (x, y)], r2).

Fixpoint add_agents (w h : Z) (mk : Z → Position → Agent) (ids : list Z)
    (st : list Agent * Random) : Result (list Agent * Random) :=
  match ids with
  | [] => Ok st
  | i :: ids' => st' ← add_agent w h (mk i) st; add_agents w h mk ids' st'
  end.

(** The pollution cells, created column by column. *)
Definition create_cells (w h : Z) : list Agent :=
  x ← range w; y ← range h; [PollutionCell (x, y) 0].

Definition __init__ (w h num_cars num_factories num_trees : Z) (seed : Random)
  : Result PollutionModel :=
  st1 ← add_agents w h (λ i, CarAgent i) (range num_cars) (create_cells w h, seed);
  st2 ← add_agents w h (λ i, FactoryAgent (num_cars + i)) (range num_factories) st1;
  st3 ← add_agents w h (λ i pos, TreeAgent (num_cars + num_factories + i) pos true)
         (range num_trees) st2;
  Ok {| width := w; height := h; schedule := st3.1; steps := 0;
        random := st3.2; datacollector := [] |}.

Definition average_pollution (m : PollutionModel) : Q :=
  let acc :=
    foldl (λ (acc : Q * nat) agent,
             match agent with
             | PollutionCell _ v => ((acc.1 + v)%Q, S acc.2)
             | _ => acc
             end) (0%Q, 0) (schedule m) in
  if decide (0 < acc.2) then (acc.1 / inject_Z (Z.of_nat acc.2))%Q else 0%Q.

(** [isinstance(agent, TreeAgent) and agent.alive] for [alive = true],
    [isinstance(agent, TreeAgent) and not agent.alive] for [alive = false]. *)
Definition is_tree (alive : bool) (a : Agent) : bool :=
  match a with
  | TreeAgent _ _ al => Bool.eqb al alive
  | _ => false
  end.

Definition tree_growth_rate (m : PollutionModel) : nat :=
  length (filter (λ a, is_tree true a) (schedule m)).

Definition tree_death_rate (m : PollutionModel) : nat :=
  length (filter (λ a, is_tree false a) (schedule m)).

(** [datacollector.collect(self)]: one value of every model reporter is
    appended to its series. *)
Definition collect (m : PollutionModel) : PollutionModel :=
  {| width := width m; height := height m; schedule := schedule m;
     steps := steps m; random := random m;
     datacollector :=
       datacollector m ++
       [{| Average_Pollution := average_pollution m;
           Tree_Growth_Rate := tree_growth_rate m;
           Tree_Death_Rate := tree_death_rate m |}] |}.

Definition step (m : PollutionModel) : Result PollutionModel :=
  SimultaneousActivation.step (collect m).

End PollutionModel.

(** [n] successive calls of the model's [step], as the server makes them. *)
Fixpoint run (n : nat) (m : PollutionModel) : Result PollutionModel :=
  match n with
  | 0 => Ok m
  | S n' => m' ← PollutionModel.step m; run n' m'
  end.

(** ** The tick, phase by phase *)

Inductive Kind := KCell | KCar | KFactory | KTree.

#[global] Instance Kind_eq_dec : EqDecision Kind.
Proof. solve_decision. Defined.

Definition kind_of (a : Agent) : Kind :=
  match a with
  | PollutionCell _ _ => KCell
  | CarAgent _ _ => KCar
  | FactoryAgent _ _ => KFactory
  | TreeAgent _ _ _ => KTree
  end.

(** The keys at which [kinds] holds [k], in increasing order; [from] is the
    key of the head of [kinds]. *)
Fixpoint keys_where (k : Kind) (from : nat) (kinds : list Kind) : list nat :=
  match kinds with
  | [] => []
  | k' :: kinds' =>
      if decide (k' = k)
      then from :: keys_where k (S from) kinds'
      else keys_where k (S from) kinds'
  end.

(** The keys of the agents of kind [k], in registration order. *)
Definition keys_of_kind (k : Kind) (s : list Agent) : list nat :=
  keys_where k 0 (kind_of <$> s).

(** Registration is kind-major: the cells, then the cars, then the
    factories, then the trees. *)
Definition kind_major (s : list Agent) : Prop :=
  ∃ cells cars factories trees,
    kind_of <$> s = replicate cells KCell ++ replicate cars KCar ++
                    replicate factories KFactory ++ replicate trees KTree.

(** Every agent of kind [k] acts, in registration order. *)
Definition phase (k : Kind) (m : PollutionModel) : Result PollutionModel :=
  run_steps (keys_of_kind k (schedule m)) m.

Definition decay (a : Agent) : Agent :=
  match a with
  | PollutionCell pos v => PollutionCell pos (v * (9 # 10))%Q
  | _ => a
  end.

(** The tick in kind-major order: cells, cars, factories, trees, and then
    the decay of every cell. *)
Definition kind_major_tick (m : PollutionModel) : Result PollutionModel :=
  m1 ← phase KCell m;
  m2 ← phase KCar m1;
  m3 ← phase KFactory m2;
  m4 ← phase KTree m3;
  Ok {| width := width m4; height := height m4;
        schedule := decay <$> schedule m4;
        steps := S (steps m4); random := random m4;
        datacollector := datacollector m4 |}.

(** Diffusion from a snapshot: every cell's new value is computed from the
    store as it was before any cell was updated. *)
Definition snapshot_diffuse (m : PollutionModel) : list Agent :=
  let snapshot := schedule m in
  (λ a, match a with
        | PollutionCell pos v =>
            let neighbors := MultiGrid.get_neighborhood (width m) (height m) pos in
            PollutionCell pos
              ((sum (neighbor ← neighbors; cell_pollution snapshot neighbor) + v)
               / inject_Z (Z.of_nat (length neighbors) + 1))%Q
        | _ => a
        end) <$> snapshot.

(** The pollution field: the value of every cell, in registration order. *)
Definition pollution_field (s : list Agent) : list Q :=
  a ← s; match a with PollutionCell _ v => [v] | _ => [] end.

(** ** The metrics, as aggregates of the population *)

(** The arithmetic mean of a list of values, 0 for the empty list. *)
Definition mean (l : list Q) : Q :=
  match l with
  | [] => 0%Q
  | _ => (sum l / inject_Z (Z.of_nat (length l)))%Q
  end.

(** The trees whose [alive] field is [alive]. *)
Definition trees_with (alive : bool) (s : list Agent) : list Agent :=
  a ← s;
  match a with
  | TreeAgent _ _ al => if decide (al = alive) then [a] else []
  | _ => []
  end.

(** ** Invariants *)

(** What never changes in an agent: its class, its identifier and, except
    for a car, its position. *)
Definition fixed_part (a : Agent) : Agent :=
  match a with
  | PollutionCell pos _ => PollutionCell pos 0
  | CarAgent id _ => CarAgent id (0, 0)%Z
  | FactoryAgent id pos => FactoryAgent id pos
  | TreeAgent id pos _ => TreeAgent id pos true
  end.

Definition nonneg (a : Agent) : Prop :=
  match a with
  | PollutionCell _ v => (0 <= v)%Q
  | _ => True
  end.

Definition in_bounds (w h : Z) (pos : Position) : Prop :=
  (0 ≤ pos.1 < w)%Z ∧ (0 ≤ pos.2 < h)%Z.

(** Moore adjacency: a different position at distance at most one in each
    coordinate. *)
Definition moore_adjacent (p q : Position) : Prop :=
  p ≠ q ∧ (Z.abs (p.1 - q.1) ≤ 1)%Z ∧ (Z.abs (p.2 - q.2) ≤ 1)%Z.

(** [stable m m']: same grid, and the same agents up to their mutable
    fields. *)
Definition stable (m m' : PollutionModel) : Prop :=
  width m' = width m ∧ height m' = height m ∧
  datacollector m' = datacollector m ∧
  fixed_part <$> schedule m' = fixed_part <$> schedule m.

(** The agents whose [step] writes none of their own fields: factories
    and dead trees. *)
Definition inert (a : Agent) : Prop :=
  match a with
  | FactoryAgent _ _ => True
  | TreeAgent _ _ false => True
  | _ => False
  end.

(** ** Well-formed populations *)

(** Every agent stands on a position of the grid. *)
Definition placed_in_bounds (m : PollutionModel) : Prop :=
  Forall (λ a, in_bounds (width m) (height m) (agent_pos a)) (schedule m).

(** Every position of the grid holds exactly one pollution cell, and no
    cell lies outside the grid. *)
Definition one_cell_per_position (w h : Z) (s : list Agent) : Prop :=
  ∀ pos,
    (in_bounds w h pos → ∃ v, cell_pollution s pos = [v]) ∧
    (¬ in_bounds w h pos → cell_pollution s pos = []).

(** What the agents of the given kinds add to a cell in one pass of the
    scheduler: 10 for each car, 20 for each factory. *)
Fixpoint emitted (kinds : list Kind) : Q :=
  match kinds with
  | [] => 0
  | KCar :: kinds' => 10 + emitted kinds'
  | KFactory :: kinds' => 20 + emitted kinds'
  | _ :: kinds' => emitted kinds'
  end.

(** Every cell of the store holds a pollution between [lo] and [hi]. *)
Definition within (lo hi : Q) (s : list Agent) : Prop :=
  Forall (λ a, match a with
               | PollutionCell _ v => (lo <= v ∧ v <= hi)%Q
               | _ => True
               end) s.

(** ** Visualization *)

(** The values of a portrayal dictionary. *)
Inductive Value :=
| VStr (s : string)
| VBool (b : bool)
| VInt (z : Z)
| VFloat (q : Q).

(** [p < q] on numbers. *)
Definition Qltb (p q : Q) : bool :=
  match (p ?= q)%Q with Lt => true | _ => false end.

Definition cell_color (pollution : Q) : string :=
  if Qltb pollution 10 then "green"
  else if Qltb pollution 20 then "yellow"
  else "red".

Definition agent_portrayal (agent : Agent) : gmap string Value :=
  match agent with
  | PollutionCell _ pollution =>
      let color := cell_color pollution in
      <["Shape" := VStr "rect"]> (<["Color" := VStr color]>
      (<["Filled" := VBool true]> (<["Layer" := VInt 0]>
      (<["w" := VInt 1]> (<["h" := VInt 1]> ∅)))))
  | CarAgent _ _ =>
      <["Shape" := VStr "circle"]> (<["Color" := VStr "blue"]>
      (<["Filled" := VBool true]> (<["Layer" := VInt 1]>
      (<["r" := VFloat (1 # 2)]> ∅))))
  | FactoryAgent _ _ =>
      <["Shape" := VStr "rect"]> (<["Color" := VStr "gray"]>
      (<["Filled" := VBool true]> (<["Layer" := VInt 1]>
      (<["w" := VFloat (4 # 5)]> (<["h" := VFloat (4 # 5)]> ∅)))))
  | TreeAgent _ _ alive =>
      let color := if alive then "darkgreen" else "brown" in
      <["Shape" := VStr "circle"]> (<["Color" := VStr color]>
      (<["Filled" := VBool true]> (<["Layer" := VInt 1]>
      (<["r" := VFloat (1 # 2)]> ∅))))
  end.

(** How alarming a cell colour is. *)
Definition severity (color : string) : nat :=
  if decide (color = "green") then 0
  else if decide (color = "yellow") then 1
  else 2.

(** ** Concrete models used in the examples *)

Definition seed1 : Random := {| oracle := λ _, 1; drawn := 0 |}.

(** A 1x3 grid with one factory, which the seed places at (0, 1). *)
Definition strip : PollutionModel :=
  {| width := 1; height := 3;
     schedule := [PollutionCell (0, 0)%Z 0; PollutionCell (0, 1)%Z 0;
                  PollutionCell (0, 2)%Z 0; FactoryAgent 0 (0, 1)%Z];
     steps := 0; random := {| oracle := λ _, 1; drawn := 2 |};
     datacollector := [] |}.

(** A 1x1 grid with one car. *)
Definition single : PollutionModel :=
  {| width := 1; height := 1;
     schedule := [PollutionCell (0, 0)%Z 0; CarAgent 0 (0, 0)%Z];
     steps := 0; random := {| oracle := λ _, 1; drawn := 2 |};
     datacollector := [] |}.

(** A 1x1 grid with one tree. *)
Definition grove : PollutionModel :=
  {| width := 1; height := 1;
     schedule := [PollutionCell (0, 0)%Z 0; TreeAgent 0 (0, 0)%Z true];
     steps := 0; random := {| oracle := λ _, 1; drawn := 2 |};
     datacollector := [] |}.

(** A 2x1 grid with one car, which the seed places at (1, 0). *)
Definition lane : PollutionModel :=
  {| width := 2; height := 1;
     schedule := [PollutionCell (0, 0)%Z 0; PollutionCell (1, 0)%Z 0;
                  CarAgent 0 (1, 0)%Z];
     steps := 0; random := {| oracle := λ _, 1; drawn := 2 |};
     datacollector := [] |}.

(** A grid of width 0, with no agent asked for. *)
Definition void : PollutionModel :=
  {| width := 0; height := 5; schedule := []; steps := 0;
     random := seed1; datacollector := [] |}.

(** * Properties *)

(** ** Exceptions propagate *)

Lemma bind_Ok {A B} (c : Result A) (f : A → Result B) (b : B) :
  c ≫= f = Ok b → ∃ a, c = Ok a ∧ f a = Ok b.
Proof. destruct c as [a|e]; [eauto | discriminate]. Qed.

Lemma run_steps_app keys1 keys2 m :
  run_steps (keys1 ++ keys2) m = run_steps keys1 m ≫= run_steps keys2.
Proof.
  revert m. induction keys1 as [|k keys1 IH]; intros m; [done|].
  simpl. destruct (agent_step k m) as [m'|e]; [apply IH | done].
Qed.

(** ** Writes to the store *)

Lemma update_cells_at_cell pos f (s : list Agent) (j : nat) p v :
  s !! j = Some (PollutionCell p v) →
  update_cells_at pos f s !! j
  = Some (PollutionCell p (if decide (p = pos) then f v else v)).
Proof.
  intros Hj. unfold update_cells_at. rewrite list_lookup_fmap, Hj. simpl.
  by destruct (decide (p = pos)).
Qed.

Lemma update_cells_at_other pos f (s : list Agent) (j : nat) a :
  s !! j = Some a → kind_of a ≠ KCell → update_cells_at pos f s !! j = Some a.
Proof.
  intros Hj Hk. unfold update_cells_at. rewrite list_lookup_fmap, Hj.
  by destruct a.
Qed.

Lemma update_cells_at_length pos f s : length (update_cells_at pos f s) = length s.
Proof. apply length_fmap. Qed.

Lemma fixed_part_update pos f s :
  fixed_part <$> update_cells_at pos f s = fixed_part <$> s.
Proof.
  unfold update_cells_at. rewrite <- list_fmap_compose.
  apply list_fmap_ext. intros _ [p v| | |] _; simpl; try done.
  by destruct (decide (p = pos)).
Qed.

Lemma fixed_part_insert (s : list Agent) (i : nat) a a' :
  s !! i = Some a → fixed_part a' = fixed_part a →
  fixed_part <$> <[i := a']> s = fixed_part <$> s.
Proof.
  intros Hi Ha. rewrite list_fmap_insert, Ha.
  apply list_insert_id. by rewrite list_lookup_fmap, Hi.
Qed.

Lemma kind_of_fixed_part a : kind_of (fixed_part a) = kind_of a.
Proof. by destruct a. Qed.

Lemma fixed_part_lookup (s s' : list Agent) (i : nat) a :
  fixed_part <$> s' = fixed_part <$> s → s !! i = Some a →
  ∃ a', s' !! i = Some a' ∧ fixed_part a' = fixed_part a.
Proof.
  intros Heq Hi.
  assert (H : (fixed_part <$> s') !! i = Some (fixed_part a))
    by (by rewrite Heq, list_lookup_fmap, Hi).
  rewrite list_lookup_fmap in H.
  destruct (s' !! i) as [a'|]; simplify_eq/=. eauto.
Qed.

Lemma fixed_part_length (s s' : list Agent) :
  fixed_part <$> s' = fixed_part <$> s → length s' = length s.
Proof. intros H. by rewrite <- (length_fmap fixed_part s'), H, length_fmap. Qed.

Lemma kind_of_fixed (s s' : list Agent) :
  fixed_part <$> s' = fixed_part <$> s → kind_of <$> s' = kind_of <$> s.
Proof.
  intros H.
  rewrite <- (list_fmap_ext (kind_of ∘ fixed_part) kind_of s'),
          <- (list_fmap_ext (kind_of ∘ fixed_part) kind_of s)
    by (intros; apply kind_of_fixed_part).
  by rewrite !list_fmap_compose, H.
Qed.

Lemma keys_of_kind_fixed k (s s' : list Agent) :
  fixed_part <$> s' = fixed_part <$> s → keys_of_kind k s' = keys_of_kind k s.
Proof. intros H. unfold keys_of_kind. by rewrite (kind_of_fixed _ _ H). Qed.

(** ** What a step leaves alone *)

Lemma stable_refl m : stable m m.
Proof. done. Qed.

Lemma stable_trans m1 m2 m3 : stable m1 m2 → stable m2 m3 → stable m1 m3.
Proof. unfold stable. intros (?&?&?&?) (?&?&?&?). repeat split; congruence. Qed.

Lemma choice_Ok {A} (l : list A) r a r' :
  choice l r = Ok (a, r') →
  l !! (oracle r (drawn r) mod length l) = Some a ∧
  r' = {| oracle := oracle r; drawn := S (drawn r) |}.
Proof.
  unfold choice, randbelow. destruct l as [|x l]; [done|].
  destruct (_ !! _) as [b|]; [|done]. by intros [= -> <-].
Qed.

Lemma agent_step_stable i m m' : agent_step i m = Ok m' → stable m m'.
Proof.
  unfold agent_step. destruct (schedule m !! i) as [[pos v|id pos|id pos|id pos al]|] eqn:Hi.
  - intros [= <-]. repeat split; simpl. by eapply fixed_part_insert.
  - unfold CarAgent.step. intros H. apply bind_Ok in H as ([np r] & _ & [= <-]).
    repeat split; simpl. rewrite fixed_part_update. by eapply fixed_part_insert.
  - intros [= <-]. repeat split; simpl. apply fixed_part_update.
  - intros [= <-]. unfold TreeAgent.step. destruct al; [|done].
    repeat split; simpl.
    rewrite (fixed_part_insert _ _ (TreeAgent id pos true)); [apply fixed_part_update| |done].
    by apply update_cells_at_other.
  - by intros [= <-].
Qed.

Lemma run_steps_stable keys m m' : run_steps keys m = Ok m' → stable m m'.
Proof.
  revert m. induction keys as [|k keys IH]; intros m; simpl.
  - by intros [= <-].
  - intros H. apply bind_Ok in H as (m1 & H1 & H2).
    eapply stable_trans; [by eapply agent_step_stable | by apply IH].
Qed.

Lemma agent_advance_stable i m : stable m (agent_advance i m).
Proof.
  unfold agent_advance.
  destruct (schedule m !! i) as [[pos v| | |]|] eqn:Hi; try done.
  repeat split; simpl. by eapply fixed_part_insert.
Qed.

Lemma run_advances_stable keys m : stable m (run_advances keys m).
Proof.
  unfold run_advances. revert m. induction keys as [|k keys IH]; intros m; [done|].
  simpl. eapply stable_trans; [apply agent_advance_stable | apply IH].
Qed.

(** ** The advance pass is the decay of every cell *)

Lemma set_schedule_id m : set_schedule (schedule m) m = m.
Proof. by destruct m. Qed.

Lemma agent_advance_eq i m a :
  schedule m !! i = Some a →
  agent_advance i m = set_schedule (<[i := decay a]> (schedule m)) m.
Proof.
  intros Hi. unfold agent_advance. rewrite Hi.
  destruct a; try done; simpl; by rewrite list_insert_id, set_schedule_id.
Qed.

Lemma run_advances_prefix n m :
  n ≤ length (schedule m) →
  run_advances (seq 0 n) m
  = set_schedule ((decay <$> take n (schedule m)) ++ drop n (schedule m)) m.
Proof.
  induction n as [|n IH]; intros Hn.
  - simpl. by rewrite drop_0, set_schedule_id.
  - rewrite seq_S. unfold run_advances in *. rewrite foldl_app, IH by lia. simpl.
    destruct (lookup_lt_is_Some_2 (schedule m) n) as [a Ha]; [lia|].
    assert (Hlen : length (decay <$> take n (schedule m)) = n)
      by (rewrite length_fmap, length_take; lia).
    rewrite (agent_advance_eq _ _ a); simpl.
    + rewrite insert_app_r_alt, Hlen, Nat.sub_diag by lia.
      rewrite (drop_S _ _ _ Ha), (take_S_r _ _ _ Ha), fmap_app. simpl.
      by rewrite <- app_assoc.
    + rewrite lookup_app_r, Hlen, Nat.sub_diag by lia.
      by rewrite lookup_drop, Nat.add_0_r.
Qed.

Lemma run_advances_all m :
  run_advances (seq 0 (length (schedule m))) m
  = set_schedule (decay <$> schedule m) m.
Proof.
  rewrite run_advances_prefix by done.
  by rewrite firstn_all, drop_all, app_nil_r.
Qed.

(** ** Keys by kind *)

Lemma keys_where_app k from ks1 ks2 :
  keys_where k from (ks1 ++ ks2)
  = keys_where k from ks1 ++ keys_where k (from + length ks1) ks2.
Proof.
  revert from. induction ks1 as [|k1 ks1 IH]; intros from; simpl.
  - by rewrite Nat.add_0_r.
  - rewrite IH, Nat.add_succ_r. by destruct (decide (k1 = k)).
Qed.

Lemma keys_where_same k from n : keys_where k from (replicate n k) = seq from n.
Proof.
  revert from. induction n as [|n IH]; intros from; simpl; [done|].
  destruct (decide (k = k)); [by rewrite IH | done].
Qed.

Lemma keys_where_other k k' from n : k' ≠ k → keys_where k from (replicate n k') = [].
Proof.
  intros Hne. revert from. induction n as [|n IH]; intros from; simpl; [done|].
  destruct (decide (k' = k)); [done | apply IH].
Qed.

Lemma keys_where_spec k from ks i :
  i ∈ keys_where k from ks ↔ from ≤ i ∧ ks !! (i - from) = Some k.
Proof.
  revert from. induction ks as [|k1 ks IH]; intros from; simpl.
  - rewrite elem_of_nil. split; [done | by intros [_ ?]].
  - destruct (decide (k1 = k)) as [->|Hne].
    + rewrite elem_of_cons, IH. split.
      * intros [->|[Hle Hi]]; [by rewrite Nat.sub_diag|].
        split; [lia|]. by replace (i - from) with (S (i - S from)) by lia.
      * intros [Hle Hi]. destruct (decide (i = from)) as [|Hif]; [by left|right].
        split; [lia|]. by replace (i - from) with (S (i - S from)) in Hi by lia.
    + rewrite IH. split.
      * intros [Hle Hi]. split; [lia|].
        by replace (i - from) with (S (i - S from)) by lia.
      * intros [Hle Hi]. destruct (decide (i = from)) as [->|Hif].
        { rewrite Nat.sub_diag in Hi. simpl in Hi. congruence. }
        split; [lia|]. by replace (i - from) with (S (i - S from)) in Hi by lia.
Qed.

Lemma keys_of_kind_spec k (s : list Agent) i :
  i ∈ keys_of_kind k s ↔ ∃ a, s !! i = Some a ∧ kind_of a = k.
Proof.
  unfold keys_of_kind. rewrite keys_where_spec, Nat.sub_0_r, list_lookup_fmap.
  destruct (s !! i) as [a|]; simpl.
  - split.
    + intros [_ [= <-]]. by exists a.
    + intros (a' & [= <-] & <-). split; [lia | done].
  - split; [by intros [_ ?] | by intros (a' & ? & _)].
Qed.

Lemma kind_major_keys (s : list Agent) a b c d :
  kind_of <$> s = replicate a KCell ++ replicate b KCar ++
                  replicate c KFactory ++ replicate d KTree →
  keys_of_kind KCell s = seq 0 a ∧ keys_of_kind KCar s = seq a b ∧
  keys_of_kind KFactory s = seq (a + b) c ∧
  keys_of_kind KTree s = seq (a + b + c) d ∧
  length s = a + b + c + d.
Proof.
  intros H. unfold keys_of_kind. rewrite H.
  rewrite !keys_where_app, !length_replicate.
  rewrite !keys_where_same, !keys_where_other by done.
  rewrite !app_nil_r. simpl. repeat split; try done.
  rewrite <- (length_fmap kind_of s), H, !length_app, !length_replicate. lia.
Qed.

Lemma scheduler_step_kind_major m :
  kind_major (schedule m) → SimultaneousActivation.step m = kind_major_tick m.
Proof.
  intros (a & b & c & d & Hk).
  destruct (kind_major_keys _ _ _ _ _ Hk) as (Ha & Hb & Hc & Hd & Hlen).
  unfold SimultaneousActivation.step, kind_major_tick, phase.
  rewrite Hlen, Ha.
  replace (a + b + c + d) with (a + (b + (c + d))) by lia.
  rewrite !seq_app. simpl. rewrite run_steps_app.
  destruct (run_steps (seq 0 a) m) as [m1|e] eqn:H1; simpl; [|done].
  pose proof (run_steps_stable _ _ _ H1) as (_ & _ & _ & F1).
  rewrite (keys_of_kind_fixed _ _ _ F1), Hb, run_steps_app.
  destruct (run_steps (seq a b) m1) as [m2|e] eqn:H2; simpl; [|done].
  pose proof (run_steps_stable _ _ _ H2) as (_ & _ & _ & F2).
  rewrite F1 in F2. rewrite (keys_of_kind_fixed _ _ _ F2), Hc, run_steps_app.
  destruct (run_steps (seq (a + b) c) m2) as [m3|e] eqn:H3; simpl; [|done].
  pose proof (run_steps_stable _ _ _ H3) as (_ & _ & _ & F3).
  rewrite F2 in F3. rewrite (keys_of_kind_fixed _ _ _ F3), Hd.
  destruct (run_steps (seq (a + b + c) d) m3) as [m4|e] eqn:H4; simpl; [|done].
  by rewrite run_advances_all.
Qed.

(** ** Construction *)

Lemma range_nil n : (n ≤ 0)%Z → range n = [].
Proof. intros Hn. unfold range. by replace (Z.to_nat n) with 0 by lia. Qed.

Lemma range_length n : length (range n) = Z.to_nat n.
Proof. unfold range. by rewrite length_fmap, length_seq. Qed.


Lemma add_agents_Ok w h mk ids st st' :
  PollutionModel.add_agents w h mk ids st = Ok st' →
  ∃ new, st'.1 = st.1 ++ new ∧
         Forall2 (λ i a, ∃ pos, a = mk i pos ∧ in_bounds w h pos) ids new.
Proof.
  revert st. induction ids as [|i ids IH]; intros st; simpl.
  - intros [= <-]. exists []. by rewrite app_nil_r.
  - intros H. apply bind_Ok in H as (st1 & H1 & H2).
    apply IH in H2 as (new & -> & Hnew).
    unfold PollutionModel.add_agent, randrange, randbelow in H1.
    destruct (0 <? w)%Z eqn:Hw; [|done]. simpl in H1.
    destruct (0 <? h)%Z eqn:Hh; [|done]. simpl in H1.
    destruct (decide _) as [|Hfresh] in H1; [done|].
    injection H1 as <-. simpl.
    eexists (_ :: new). rewrite <- app_assoc. split; [done|].
    constructor; [|done]. eexists. split; [done|].
    apply Z.ltb_lt in Hw, Hh. unfold in_bounds. simpl.
    pose proof (Nat.mod_upper_bound (oracle st.2 (drawn st.2)) (Z.to_nat w)).
    pose proof (Nat.mod_upper_bound (oracle st.2 (S (drawn st.2))) (Z.to_nat h)).
    lia.
Qed.

Lemma Forall2_kinds {I} (P : I → Agent → Prop) k (ids : list I) (new : list Agent) :
  (∀ i a, P i a → kind_of a = k) →
  Forall2 P ids new → kind_of <$> new = replicate (length ids) k.
Proof.
  intros HP. induction 1 as [|i a ids new Hia _ IH]; csimpl; [done|].
  by rewrite (HP _ _ Hia), IH.
Qed.

Lemma create_cells_kinds w h :
  kind_of <$> PollutionModel.create_cells w h
  = replicate (length (PollutionModel.create_cells w h)) KCell.
Proof.
  unfold PollutionModel.create_cells.
  induction (range w) as [|x xs IH]; [done|].
  rewrite bind_cons, fmap_app, length_app, replicate_add, IH. f_equal.
  clear IH. induction (range h) as [|y ys IH]; [done|].
  rewrite bind_cons. csimpl. by rewrite IH.
Qed.

Lemma init_Ok w h c f t seed m :
  PollutionModel.__init__ w h c f t seed = Ok m →
  ∃ cars factories trees,
    schedule m = PollutionModel.create_cells w h ++ cars ++ factories ++ trees ∧
    Forall2 (λ i a, ∃ pos, a = CarAgent i pos ∧ in_bounds w h pos) (range c) cars ∧
    Forall2 (λ i a, ∃ pos, a = FactoryAgent (c + i) pos ∧ in_bounds w h pos)
            (range f) factories ∧
    Forall2 (λ i a, ∃ pos, a = TreeAgent (c + f + i) pos true ∧ in_bounds w h pos)
            (range t) trees ∧
    width m = w ∧ height m = h ∧ steps m = 0 ∧ datacollector m = [].
Proof.
  unfold PollutionModel.__init__. intros H.
  apply bind_Ok in H as (st1 & H1 & H). apply bind_Ok in H as (st2 & H2 & H).
  apply bind_Ok in H as (st3 & H3 & H). injection H as <-.
  apply add_agents_Ok in H1 as (cars & E1 & F1).
  apply add_agents_Ok in H2 as (factories & E2 & F2).
  apply add_agents_Ok in H3 as (trees & E3 & F3).
  exists cars, factories, trees. simpl.
  rewrite E3, E2, E1. simpl. rewrite <- !app_assoc. done.
Qed.

Lemma init_kinds w h c f t seed m :
  PollutionModel.__init__ w h c f t seed = Ok m →
  kind_of <$> schedule m
  = replicate (length (PollutionModel.create_cells w h)) KCell ++
    replicate (Z.to_nat c) KCar ++ replicate (Z.to_nat f) KFactory ++
    replicate (Z.to_nat t) KTree.
Proof.
  intros H. apply init_Ok in H as (cars & facs & trees & -> & F1 & F2 & F3 & _).
  apply (Forall2_kinds _ KCar) in F1; [|by intros ?? [? [-> _]]].
  apply (Forall2_kinds _ KFactory) in F2; [|by intros ?? [? [-> _]]].
  apply (Forall2_kinds _ KTree) in F3; [|by intros ?? [? [-> _]]].
  rewrite !range_length in *.
  by rewrite !fmap_app, create_cells_kinds, F1, F2, F3.
Qed.

Lemma init_kind_major w h c f t seed m :
  PollutionModel.__init__ w h c f t seed = Ok m → kind_major (schedule m).
Proof. intros H. eexists _, _, _, _. by eapply init_kinds. Qed.

(** ** Ticks keep the population *)

Lemma scheduler_step_fixed m m' :
  SimultaneousActivation.step m = Ok m' →
  width m' = width m ∧ height m' = height m ∧
  datacollector m' = datacollector m ∧
  fixed_part <$> schedule m' = fixed_part <$> schedule m.
Proof.
  unfold SimultaneousActivation.step. intros H.
  apply bind_Ok in H as (m1 & H1 & [= <-]). simpl.
  pose proof (run_steps_stable _ _ _ H1) as S1.
  pose proof (run_advances_stable (seq 0 (length (schedule m1))) m1) as S2.
  exact (stable_trans _ _ _ S1 S2).
Qed.

Lemma model_step_fixed m m' :
  PollutionModel.step m = Ok m' →
  width m' = width m ∧ height m' = height m ∧
  fixed_part <$> schedule m' = fixed_part <$> schedule m.
Proof.
  unfold PollutionModel.step. intros H.
  apply scheduler_step_fixed in H as (? & ? & _ & ?). done.
Qed.

Lemma run_fixed n m m' :
  run n m = Ok m' →
  width m' = width m ∧ height m' = height m ∧
  fixed_part <$> schedule m' = fixed_part <$> schedule m.
Proof.
  revert m. induction n as [|n IH]; intros m; simpl.
  - by intros [= <-].
  - intros H. apply bind_Ok in H as (m1 & H1 & H2).
    apply model_step_fixed in H1 as (? & ? & ?).
    apply IH in H2 as (? & ? & ?). repeat split; congruence.
Qed.

Lemma kind_major_fixed (s s' : list Agent) :
  fixed_part <$> s' = fixed_part <$> s → kind_major s → kind_major s'.
Proof.
  intros H (a & b & c & d & Hk). exists a, b, c, d.
  by rewrite (kind_of_fixed _ _ H).
Qed.

(** ** Reading a cell *)

Lemma elem_of_cell_pollution (s : list Agent) pos v :
  v ∈ cell_pollution s pos ↔ ∃ j : nat, s !! j = Some (PollutionCell pos v).
Proof.
  unfold cell_pollution, MultiGrid.get_cell_list_contents.
  rewrite list_elem_of_bind. split.
  - intros (a & Hv & Ha). apply list_elem_of_filter in Ha as [Hp Ha].
    apply list_elem_of_lookup in Ha as [j Hj]. exists j.
    destruct a; try (by apply elem_of_nil in Hv).
    apply list_elem_of_singleton in Hv. simpl in Hp. by subst.
  - intros [j Hj]. exists (PollutionCell pos v). split; [by left|].
    apply list_elem_of_filter. split; [done|]. by eapply list_elem_of_lookup_2.
Qed.

Lemma Qgtb_true p q : Qgtb p q = true ↔ (q < p)%Q.
Proof.
  unfold Qgtb. rewrite Qgt_alt. destruct (p ?= q)%Q; split; congruence.
Qed.

Lemma survives_false (l : list Q) b :
  foldl (λ still v, if Qgtb v 30 then false else still) b l = false
  ↔ b = false ∨ ∃ v, v ∈ l ∧ (30 < v)%Q.
Proof.
  revert b. induction l as [|v l IH]; intros b; simpl.
  - split; [by left|]. intros [?|(v & Hv & _)]; [done|]. by apply elem_of_nil in Hv.
  - rewrite IH. destruct (Qgtb v 30) eqn:Hg.
    + apply Qgtb_true in Hg. split; [|by left].
      intros _. right. exists v. split; [by left|done].
    + split.
      * intros [?|(v' & Hv' & Hlt)]; [by left|right].
        exists v'. split; [by right|done].
      * intros [?|(v' & Hv' & Hlt)]; [by left|].
        apply elem_of_cons in Hv' as [->|Hv'].
        { apply Qgtb_true in Hlt. congruence. }
        right. eauto.
Qed.

(** ** Factories and dead trees are never written *)

Lemma agent_step_inert i j m m' a :
  inert a → schedule m !! i = Some a → agent_step j m = Ok m' →
  schedule m' !! i = Some a.
Proof.
  intros Ha Hi. assert (Hk : kind_of a ≠ KCell) by (by destruct a).
  unfold agent_step.
  destruct (schedule m !! j) as [[pos v|id pos|id pos|id pos al]|] eqn:Hj.
  - intros [= <-]. simpl. rewrite list_lookup_insert_ne; [done|].
    intros ->. rewrite Hi in Hj. by simplify_eq.
  - unfold CarAgent.step. intros H. apply bind_Ok in H as ([np r] & _ & [= <-]).
    simpl. apply update_cells_at_other; [|done].
    rewrite list_lookup_insert_ne; [done|].
    intros ->. rewrite Hi in Hj. by simplify_eq.
  - intros [= <-]. simpl. by apply update_cells_at_other.
  - intros [= <-]. unfold TreeAgent.step. destruct al; [|done]. simpl.
    rewrite list_lookup_insert_ne; [by apply update_cells_at_other|].
    intros ->. rewrite Hi in Hj. by simplify_eq.
  - by intros [= <-].
Qed.

Lemma run_steps_inert keys i m m' a :
  inert a → schedule m !! i = Some a → run_steps keys m = Ok m' →
  schedule m' !! i = Some a.
Proof.
  intros Ha. revert m. induction keys as [|k keys IH]; intros m Hi; simpl.
  - by intros [= <-].
  - intros H. apply bind_Ok in H as (m1 & H1 & H2).
    eapply IH; [|done]. by eapply agent_step_inert.
Qed.

Lemma model_step_inert i m m' a :
  inert a → schedule m !! i = Some a → PollutionModel.step m = Ok m' →
  schedule m' !! i = Some a.
Proof.
  intros Ha Hi. unfold PollutionModel.step, SimultaneousActivation.step.
  intros H. apply bind_Ok in H as (m1 & H1 & [= <-]). simpl.
  rewrite run_advances_all. simpl. rewrite list_lookup_fmap.
  rewrite (run_steps_inert _ i (PollutionModel.collect m) _ _ Ha Hi H1).
  by destruct a.
Qed.

Lemma run_inert n i m m' a :
  inert a → schedule m !! i = Some a → run n m = Ok m' →
  schedule m' !! i = Some a.
Proof.
  intros Ha. revert m. induction n as [|n IH]; intros m Hi; simpl.
  - by intros [= <-].
  - intros H. apply bind_Ok in H as (m1 & H1 & H2).
    eapply IH; [|done]. by eapply model_step_inert.
Qed.

(** ** The neighbourhood *)

Lemma elem_of_range n z : z ∈ range n ↔ (0 ≤ z < n)%Z.
Proof.
  unfold range. rewrite list_elem_of_fmap. split.
  - intros (k & -> & Hk). apply elem_of_seq in Hk. lia.
  - intros Hz. exists (Z.to_nat z). split; [lia|]. apply elem_of_seq. lia.
Qed.

Lemma elem_of_range_from lo hi z : z ∈ range_from lo hi ↔ (lo ≤ z < hi)%Z.
Proof.
  unfold range_from. rewrite list_elem_of_fmap. split.
  - intros (k & -> & Hk). apply elem_of_range in Hk. lia.
  - intros Hz. exists (z - lo)%Z. split; [lia|]. apply elem_of_range. lia.
Qed.

Lemma NoDup_range_from lo hi : NoDup (range_from lo hi).
Proof.
  unfold range_from, range. apply NoDup_fmap_2; [intros ???; lia|].
  apply NoDup_fmap_2; [intros ???; lia|]. apply NoDup_seq.
Qed.

Lemma elem_of_get_neighborhood w h pos p :
  p ∈ MultiGrid.get_neighborhood w h pos ↔ in_bounds w h p ∧ moore_adjacent p pos.
Proof.
  unfold MultiGrid.get_neighborhood, in_bounds, moore_adjacent.
  rewrite list_elem_of_filter, list_elem_of_bind.
  destruct p as [px py], pos as [x y]. simpl. split.
  - intros (Hne & nx & Hin & Hx). apply list_elem_of_bind in Hin as (ny & Hin & Hy).
    apply list_elem_of_singleton in Hin as [= -> ->].
    apply elem_of_range_from in Hx, Hy. repeat split; try done; lia.
  - intros ((Hx & Hy) & Hne & Hdx & Hdy). split; [done|].
    exists px. split; [|apply elem_of_range_from; lia].
    apply list_elem_of_bind. exists py.
    split; [by left | apply elem_of_range_from; lia].
Qed.

Lemma NoDup_get_neighborhood w h pos : NoDup (MultiGrid.get_neighborhood w h pos).
Proof.
  unfold MultiGrid.get_neighborhood. apply NoDup_filter, NoDup_bind.
  - intros x1 x2 p _ _ H1 H2.
    apply list_elem_of_bind in H1 as (y1 & H1 & _), H2 as (y2 & H2 & _).
    apply list_elem_of_singleton in H1, H2. congruence.
  - intros x _. apply NoDup_bind; [|intros; apply NoDup_singleton|apply NoDup_range_from].
    intros y1 y2 p _ _ H1 H2. apply list_elem_of_singleton in H1, H2. congruence.
  - apply NoDup_range_from.
Qed.

Lemma get_neighborhood_nonempty w h pos :
  in_bounds w h pos → (1 < w ∨ 1 < h)%Z → MultiGrid.get_neighborhood w h pos ≠ [].
Proof.
  intros [Hx Hy] Hwh.
  assert (∃ p, in_bounds w h p ∧ moore_adjacent p pos) as (p & Hp).
  { destruct pos as [x y]. unfold in_bounds, moore_adjacent. simpl in *.
    destruct Hwh as [Hw|Hh].
    - destruct (decide (x + 1 < w)%Z).
      + exists (x + 1, y)%Z. simpl. repeat split; try lia. intros [= ?]; lia.
      + exists (x - 1, y)%Z. simpl. repeat split; try lia. intros [= ?]; lia.
    - destruct (decide (y + 1 < h)%Z).
      + exists (x, y + 1)%Z. simpl. repeat split; try lia. intros [= ?]; lia.
      + exists (x, y - 1)%Z. simpl. repeat split; try lia. intros [= ?]; lia. }
  apply elem_of_get_neighborhood in Hp. intros E. rewrite E in Hp.
  by apply elem_of_nil in Hp.
Qed.

Lemma choice_nonempty {A} (l : list A) r :
  l ≠ [] →
  ∃ a, l !! (oracle r (drawn r) mod length l) = Some a ∧
       choice l r = Ok (a, {| oracle := oracle r; drawn := S (drawn r) |}).
Proof.
  intros Hl. destruct (lookup_lt_is_Some_2 l (oracle r (drawn r) mod length l)) as [a Ha].
  { apply Nat.mod_upper_bound. by destruct l. }
  exists a. split; [done|]. unfold choice, randbelow. destruct l; [done|].
  by rewrite Ha.
Qed.

(** ** Factories *)

(** C6. When a factory acts, every pollution cell at the factory's
    position that held [p] holds exactly [p + 20] in the store the next
    agent sees (the decay comes only in the later advance pass), the cells
    elsewhere are untouched, and the factory keeps its position, in this
    step and in every later tick. *)
Theorem factory_adds_20 (i : nat) id pos m :
  schedule m !! i = Some (FactoryAgent id pos) →
  ∃ m', agent_step i m = Ok m' ∧
    (∀ (j : nat) p, schedule m !! j = Some (PollutionCell pos p) →
       schedule m' !! j = Some (PollutionCell pos (p + 20)%Q)) ∧
    (∀ (j : nat) q p, q ≠ pos → schedule m !! j = Some (PollutionCell q p) →
       schedule m' !! j = Some (PollutionCell q p)) ∧
    schedule m' !! i = Some (FactoryAgent id pos) ∧
    (∀ n m'', run n m = Ok m'' →
       schedule m'' !! i = Some (FactoryAgent id pos)).
Proof.
  intros Hi. exists (FactoryAgent.step i id pos m).
  split; [by unfold agent_step; rewrite Hi|]. simpl. repeat split.
  - intros j p Hj. rewrite (update_cells_at_cell _ _ _ _ _ _ Hj).
    by destruct (decide (pos = pos)).
  - intros j q p Hq Hj. rewrite (update_cells_at_cell _ _ _ _ _ _ Hj).
    by destruct (decide (q = pos)).
  - by apply update_cells_at_other.
  - intros n m'' Hrun. by eapply run_inert.
Qed.

Lemma factory_adds_20_witness :
  schedule strip !! 3 = Some (FactoryAgent 0 (0, 1)%Z) ∧
  ∃ m', agent_step 3 strip = Ok m' ∧
    (∀ (j : nat) p, schedule strip !! j = Some (PollutionCell (0, 1)%Z p) →
       schedule m' !! j = Some (PollutionCell (0, 1)%Z (p + 20)%Q)) ∧
    (∀ (j : nat) q p, q ≠ (0, 1)%Z → schedule strip !! j = Some (PollutionCell q p) →
       schedule m' !! j = Some (PollutionCell q p)) ∧
    schedule m' !! 3 = Some (FactoryAgent 0 (0, 1)%Z) ∧
    (∀ n m'', run n strip = Ok m'' →
       schedule m'' !! 3 = Some (FactoryAgent 0 (0, 1)%Z)).
Proof.
  split; [reflexivity|]. apply (factory_adds_20 3 0 (0, 1)%Z strip). reflexivity.
Defined.

(** ** Trees *)

(** C3. A tree acts only while alive: it multiplies the pollution of the
    cell at its position by 0.7 and then dies exactly when that mitigated
    pollution exceeds 30; a dead tree's step changes nothing, and over any
    number of ticks a tree stays registered at its position and a dead
    tree stays dead. *)
Theorem tree_mitigates_then_may_die (i : nat) id pos alive m :
  schedule m !! i = Some (TreeAgent id pos alive) →
  ∃ m', agent_step i m = Ok m' ∧
    (alive = false → m' = m) ∧
    (alive = true →
       (∀ (j : nat) p v, schedule m !! j = Some (PollutionCell p v) →
          schedule m' !! j
          = Some (PollutionCell p (if decide (p = pos) then v * (7 # 10) else v)%Q)) ∧
       (∀ (j : nat) a, j ≠ i → schedule m !! j = Some a → kind_of a ≠ KCell →
          schedule m' !! j = Some a) ∧
       ∃ alive', schedule m' !! i = Some (TreeAgent id pos alive') ∧
         (alive' = false ↔
          ∃ (j : nat) v, schedule m' !! j = Some (PollutionCell pos v) ∧ (30 < v)%Q)) ∧
    (∀ n m'', run n m = Ok m'' →
       ∃ alive'', schedule m'' !! i = Some (TreeAgent id pos alive'') ∧
         (alive = false → alive'' = false ∧ agent_step i m'' = Ok m'')).
Proof.
  intros Hi. exists (TreeAgent.step i id pos alive m).
  split; [by unfold agent_step; rewrite Hi|]. split; [by intros ->|]. split.
  - intros ->. unfold TreeAgent.step. simpl.
    set (reduced := update_cells_at pos (λ v, v * (7 # 10))%Q (schedule m)).
    assert (Hcell : ∀ (j : nat) p v, schedule m !! j = Some (PollutionCell p v) →
              reduced !! j
              = Some (PollutionCell p (if decide (p = pos) then v * (7 # 10) else v)%Q))
      by (intros j p v Hj; unfold reduced;
          by rewrite (update_cells_at_cell _ _ _ _ _ _ Hj)).
    assert (Hne : ∀ (j : nat) p v, schedule m !! j = Some (PollutionCell p v) → i ≠ j)
      by (intros j p v Hj ->; rewrite Hi in Hj; by simplify_eq).
    repeat split.
    + intros j p v Hj. rewrite list_lookup_insert_ne by eauto. eauto.
    + intros j a Hji Hj Hk. rewrite list_lookup_insert_ne by done.
      by apply update_cells_at_other.
    + eexists. split.
      { apply list_lookup_insert_eq. unfold reduced.
        rewrite update_cells_at_length. by eapply lookup_lt_Some. }
      rewrite survives_false. split.
      * intros [?|(v & Hv & Hlt)]; [done|].
        apply elem_of_cell_pollution in Hv as [j Hj]. exists j, v. split; [|done].
        rewrite list_lookup_insert_ne; [done|].
        intros <-. unfold reduced in Hj.
        rewrite (update_cells_at_other _ _ _ _ _ Hi) in Hj; by simplify_eq.
      * intros (j & v & Hj & Hlt). right. exists v. split; [|done].
        apply elem_of_cell_pollution. exists j.
        destruct (decide (i = j)) as [<-|Hij].
        { rewrite list_lookup_insert_eq in Hj; [by simplify_eq|].
          unfold reduced. rewrite update_cells_at_length. by eapply lookup_lt_Some. }
        by rewrite list_lookup_insert_ne in Hj.
  - intros n m'' Hrun. destruct alive.
    + destruct (run_fixed _ _ _ Hrun) as (_ & _ & Hf).
      destruct (fixed_part_lookup _ _ _ _ Hf Hi) as (a' & Ha' & Hfa).
      destruct a'; simplify_eq/=. eexists. split; [done|]. by intros.
    + exists false.
      assert (Hi'' : schedule m'' !! i = Some (TreeAgent id pos false))
        by (by eapply run_inert; [|done|done]).
      split; [done|]. intros _. split; [done|].
      unfold agent_step. by rewrite Hi''.
Qed.

Lemma tree_mitigates_then_may_die_witness :
  schedule grove !! 1 = Some (TreeAgent 0 (0, 0)%Z true) ∧
  ∃ m', agent_step 1 grove = Ok m' ∧
    (true = false → m' = grove) ∧
    (true = true →
       (∀ (j : nat) p v, schedule grove !! j = Some (PollutionCell p v) →
          schedule m' !! j
          = Some (PollutionCell p (if decide (p = (0, 0)%Z) then v * (7 # 10) else v)%Q)) ∧
       (∀ (j : nat) a, j ≠ 1 → schedule grove !! j = Some a → kind_of a ≠ KCell →
          schedule m' !! j = Some a) ∧
       ∃ alive', schedule m' !! 1 = Some (TreeAgent 0 (0, 0)%Z alive') ∧
         (alive' = false ↔
          ∃ (j : nat) v, schedule m' !! j = Some (PollutionCell (0, 0)%Z v) ∧ (30 < v)%Q)) ∧
    (∀ n m'', run n grove = Ok m'' →
       ∃ alive'', schedule m'' !! 1 = Some (TreeAgent 0 (0, 0)%Z alive'') ∧
         (true = false → alive'' = false ∧ agent_step 1 m'' = Ok m'')).
Proof.
  split; [reflexivity|].
  apply (tree_mitigates_then_may_die 1 0 (0, 0)%Z true grove). reflexivity.
Defined.

(** ** Cars *)

(** C5, as the code has it.  On a grid with more than one cell a car
    draws an index below the number of its Moore neighbours (distinct
    in-bounds positions adjacent to its own, fewer at edges and corners),
    moves to the neighbour at that index, and adds exactly 10 to every
    pollution cell at the new position; nothing else is written, and the
    agents processed next start from that store. *)
Theorem car_moves_and_adds_10 (i : nat) id pos m :
  schedule m !! i = Some (CarAgent id pos) →
  in_bounds (width m) (height m) pos →
  (1 < width m ∨ 1 < height m)%Z →
  let next_moves := MultiGrid.get_neighborhood (width m) (height m) pos in
  ∃ new_position m',
    agent_step i m = Ok m' ∧
    next_moves !! (oracle (random m) (drawn (random m)) mod length next_moves)
    = Some new_position ∧
    NoDup next_moves ∧
    (∀ p, p ∈ next_moves ↔ in_bounds (width m) (height m) p ∧ moore_adjacent p pos) ∧
    schedule m' !! i = Some (CarAgent id new_position) ∧
    (∀ (j : nat) p v, schedule m !! j = Some (PollutionCell p v) →
       schedule m' !! j
       = Some (PollutionCell p (if decide (p = new_position) then v + 10 else v)%Q)) ∧
    (∀ (j : nat) a, j ≠ i → schedule m !! j = Some a → kind_of a ≠ KCell →
       schedule m' !! j = Some a) ∧
    (∀ keys, run_steps (i :: keys) m = run_steps keys m').
Proof.
  intros Hi Hpos Hwh next_moves.
  destruct (choice_nonempty next_moves (random m)) as (np & Hnp & Hch).
  { by apply get_neighborhood_nonempty. }
  assert (Hstep : agent_step i m = CarAgent.step i id pos m)
    by (by unfold agent_step; rewrite Hi).
  unfold CarAgent.step in Hstep. fold next_moves in Hstep.
  rewrite Hch in Hstep. simpl in Hstep.
  eexists np, _. split; [exact Hstep|]. simpl.
  assert (Hlen : i < length (schedule m)) by (by eapply lookup_lt_Some).
  split; [done|]. split; [apply NoDup_get_neighborhood|].
  split; [intros p; apply elem_of_get_neighborhood|].
  split; [|split; [|split]].
  - apply update_cells_at_other; [|done]. by apply list_lookup_insert_eq.
  - intros j p v Hj.
    rewrite (update_cells_at_cell _ _ _ _ p v); [done|].
    rewrite list_lookup_insert_ne; [done|].
    intros ->. rewrite Hi in Hj. by simplify_eq.
  - intros j a Hji Hj Hk. apply update_cells_at_other; [|done].
    by rewrite list_lookup_insert_ne.
  - intros keys. simpl. by rewrite Hstep.
Qed.

Lemma car_moves_and_adds_10_witness :
  schedule lane !! 2 = Some (CarAgent 0 (1, 0)%Z) ∧
  ∃ new_position m',
    agent_step 2 lane = Ok m' ∧
    MultiGrid.get_neighborhood 2 1 (1, 0)%Z !! 0 = Some new_position ∧
    schedule m' !! 2 = Some (CarAgent 0 new_position).
Proof.
  split; [reflexivity|].
  destruct (car_moves_and_adds_10 2 0 (1, 0)%Z lane)
    as (np & m' & Hstep & Hnp & _ & _ & Hcar & _).
  - reflexivity.
  - unfold in_bounds. simpl. lia.
  - simpl. lia.
  - by exists np, m'.
Defined.

(** C5, as stated, fails on the 1x1 grid: the car of the model built by
    [__init__ 1 1 1 0 0] has no neighbour to choose, and its step raises
    instead of moving and adding 10. *)
Lemma car_without_neighbour_raises :
  PollutionModel.__init__ 1 1 1 0 0 seed1 = Ok single ∧
  schedule single !! 1 = Some (CarAgent 0 (0, 0)%Z) ∧
  MultiGrid.get_neighborhood (width single) (height single) (0, 0)%Z = [] ∧
  agent_step 1 single = Raise IndexError ∧
  ¬ ∃ new_position m',
      agent_step 1 single = Ok m' ∧
      schedule m' !! 1 = Some (CarAgent 0 new_position).
Proof.
  repeat split; try reflexivity.
  intros (np & m' & H & _). discriminate H.
Qed.

(** C9. On a 1x1 grid with at least one car the first tick raises: the
    cell's step succeeds, and the step of the first car, which stands on
    the only cell, finds an empty neighbourhood and raises [IndexError]. *)
Theorem single_cell_car_tick_raises c f t seed m :
  (1 ≤ c)%Z →
  PollutionModel.__init__ 1 1 c f t seed = Ok m →
  MultiGrid.get_neighborhood (width m) (height m) (0, 0)%Z = [] ∧
  schedule m !! 1 = Some (CarAgent 0 (0, 0)%Z) ∧
  (∃ m1, agent_step 0 (PollutionModel.collect m) = Ok m1 ∧
         agent_step 1 m1 = Raise IndexError) ∧
  PollutionModel.step m = Raise IndexError.
Proof.
  intros Hc Hinit.
  apply init_Ok in Hinit as (cars & facs & trees & Hs & F1 & _ & _ & Hw & Hh & _).
  assert (Hr : range c = 0%Z :: ((λ k, 1 + k)%Z <$> range (c - 1))).
  { unfold range. replace (Z.to_nat c) with (S (Z.to_nat (c - 1))) by lia.
    simpl. f_equal. rewrite <- seq_shift, <- !list_fmap_compose.
    apply list_fmap_ext. intros; simpl; lia. }
  rewrite Hr in F1. inversion F1 as [|? car ? cars' (pos & -> & Hpos) _]; subst.
  assert (pos = (0, 0)%Z) as ->.
  { destruct pos as [x y]. unfold in_bounds in Hpos. simpl in Hpos.
    f_equal; lia. }
  change (PollutionModel.create_cells 1 1) with [PollutionCell (0, 0)%Z 0] in Hs.
  simpl in Hs. rewrite Hw, Hh.
  split; [reflexivity|]. split; [by rewrite Hs|].
  assert (Hcell : agent_step 0 (PollutionModel.collect m)
                  = Ok (PollutionCell.step 0 (0, 0)%Z 0 (PollutionModel.collect m)))
    by (unfold agent_step; simpl; by rewrite Hs).
  assert (Hcar : agent_step 1 (PollutionCell.step 0 (0, 0)%Z 0 (PollutionModel.collect m))
                 = Raise IndexError).
  { unfold agent_step. simpl. rewrite Hs. simpl.
    unfold CarAgent.step. simpl. by rewrite Hw, Hh. }
  split; [eauto|].
  unfold PollutionModel.step, SimultaneousActivation.step.
  replace (seq 0 (length (schedule (PollutionModel.collect m))))
    with ([0; 1] ++ seq 2 (length (cars' ++ facs ++ trees)))
    by (simpl; by rewrite Hs).
  rewrite run_steps_app.
  assert (run_steps [0; 1] (PollutionModel.collect m) = Raise IndexError) as ->
    by (simpl; rewrite Hcell; simpl; by rewrite Hcar).
  done.
Qed.

Lemma single_cell_car_tick_raises_witness :
  (1 ≤ 1)%Z ∧
  PollutionModel.__init__ 1 1 1 0 0 seed1 = Ok single ∧
  PollutionModel.step single = Raise IndexError.
Proof.
  split; [lia|]. split; [reflexivity|].
  apply (single_cell_car_tick_raises 1 0 0 seed1 single); [lia | reflexivity].
Defined.

(** ** Construction on an empty grid *)

Lemma create_cells_empty w h : (w ≤ 0 ∨ h ≤ 0)%Z → PollutionModel.create_cells w h = [].
Proof.
  unfold PollutionModel.create_cells. intros [Hw|Hh].
  - by rewrite (range_nil w).
  - rewrite (range_nil h) by done. by induction (range w).
Qed.

Lemma add_agent_empty_grid w h mk st :
  (w ≤ 0 ∨ h ≤ 0)%Z → PollutionModel.add_agent w h mk st = Raise ValueError.
Proof.
  intros Hwh. unfold PollutionModel.add_agent, randrange.
  destruct (0 <? w)%Z eqn:Hw; [|done]. simpl.
  destruct (0 <? h)%Z eqn:Hh; [|done]. apply Z.ltb_lt in Hw, Hh. lia.
Qed.

Lemma add_agents_empty_grid w h mk n st :
  (w ≤ 0 ∨ h ≤ 0)%Z → (0 < n)%Z →
  PollutionModel.add_agents w h mk (range n) st = Raise ValueError.
Proof.
  intros Hwh Hn. unfold range.
  replace (Z.to_nat n) with (S (Z.to_nat (n - 1))) by lia. csimpl.
  by rewrite add_agent_empty_grid.
Qed.

Lemma run_empty n w h k r d :
  run n {| width := w; height := h; schedule := []; steps := k;
           random := r; datacollector := d |}
  = Ok {| width := w; height := h; schedule := []; steps := k + n;
          random := r;
          datacollector :=
            d ++ replicate n {| Average_Pollution := 0; Tree_Growth_Rate := 0;
                                Tree_Death_Rate := 0 |} |}.
Proof.
  revert k d. induction n as [|n IH]; intros k d.
  - simpl. by rewrite Nat.add_0_r, app_nil_r.
  - change (run (S n) ?m) with (PollutionModel.step m ≫= run n).
    change (PollutionModel.step
              {| width := w; height := h; schedule := []; steps := k;
                 random := r; datacollector := d |})
      with (Ok {| width := w; height := h; schedule := []; steps := S k;
                  random := r;
                  datacollector :=
                    d ++ [{| Average_Pollution := 0; Tree_Growth_Rate := 0;
                             Tree_Death_Rate := 0 |}] |}).
    simpl. rewrite IH, <- app_assoc, Nat.add_succ_r. done.
Qed.

(** C4, as the code has it.  [__init__] validates nothing itself.  On a
    grid with [w <= 0] or [h <= 0] it creates no cell; it then raises
    [ValueError], from the first position draw, when some count is
    positive, and it returns a model with an empty population when the
    dimensions are not negative and no count is positive.  On that model
    a tick runs and records the average pollution 0 and no tree, and so
    does every later tick. *)
Theorem empty_grid_construction w h c f t seed :
  (w ≤ 0 ∨ h ≤ 0)%Z →
  ((0 < c ∨ 0 < f ∨ 0 < t)%Z →
     PollutionModel.__init__ w h c f t seed = Raise ValueError) ∧
  ((0 ≤ w)%Z → (0 ≤ h)%Z → (c ≤ 0)%Z → (f ≤ 0)%Z → (t ≤ 0)%Z →
     PollutionModel.__init__ w h c f t seed
     = Ok {| width := w; height := h; schedule := []; steps := 0;
             random := seed; datacollector := [] |} ∧
     PollutionModel.step
       {| width := w; height := h; schedule := []; steps := 0;
          random := seed; datacollector := [] |}
     = Ok {| width := w; height := h; schedule := []; steps := 1;
             random := seed;
             datacollector :=
               [{| Average_Pollution := 0; Tree_Growth_Rate := 0;
                   Tree_Death_Rate := 0 |}] |} ∧
     ∀ n,
       run n {| width := w; height := h; schedule := []; steps := 0;
                random := seed; datacollector := [] |}
       = Ok {| width := w; height := h; schedule := []; steps := n;
               random := seed;
               datacollector :=
                 replicate n {| Average_Pollution := 0; Tree_Growth_Rate := 0;
                                Tree_Death_Rate := 0 |} |}).
Proof.
  intros Hwh. unfold PollutionModel.__init__. split.
  - intros Hpos. destruct (decide (0 < c)%Z) as [Hc|Hc].
    { by rewrite add_agents_empty_grid. }
    rewrite (range_nil c) by lia. simpl.
    destruct (decide (0 < f)%Z) as [Hf|Hf].
    { by rewrite add_agents_empty_grid. }
    rewrite (range_nil f) by lia. simpl.
    rewrite add_agents_empty_grid; [done|done|lia].
  - intros _ _ Hc Hf Ht. split; [|split].
    + rewrite (range_nil c), (range_nil f), (range_nil t) by done. simpl.
      by rewrite create_cells_empty.
    + reflexivity.
    + intros n. apply (run_empty n w h 0 seed []).
Qed.

Lemma empty_grid_construction_witness :
  (0 ≤ 0 ∨ 5 ≤ 0)%Z ∧
  PollutionModel.__init__ 0 5 0 1 0 seed1 = Raise ValueError ∧
  PollutionModel.__init__ 0 5 0 0 0 seed1 = Ok void ∧
  ∃ m, PollutionModel.step void = Ok m ∧
       Average_Pollution <$> datacollector m = [0%Q].
Proof.
  assert (H : (0 ≤ 0 ∨ 5 ≤ 0)%Z) by (left; lia).
  split; [exact H|].
  destruct (empty_grid_construction 0 5 0 1 0 seed1 H) as [Hraise _].
  destruct (empty_grid_construction 0 5 0 0 0 seed1 H) as [_ Hok].
  destruct Hok as (Hinit & Hstep & _); try lia.
  split; [apply Hraise; lia|]. split; [exact Hinit|].
  eexists. split; [exact Hstep | reflexivity].
Defined.

(** C4, as stated, fails: with width 0 and no agent asked for the
    construction succeeds, and the model then runs a tick, which records
    the average pollution 0. *)
Lemma zero_width_is_accepted :
  PollutionModel.__init__ 0 5 0 0 0 seed1 = Ok void ∧
  (∃ m, PollutionModel.step void = Ok m ∧ steps m = 1 ∧
        Average_Pollution <$> datacollector m = [0%Q]) ∧
  ¬ (∀ w h c f t seed, (w ≤ 0 ∨ h ≤ 0)%Z →
       ∃ e, PollutionModel.__init__ w h c f t seed = Raise e).
Proof.
  split; [reflexivity|]. split; [eexists; repeat split; reflexivity|].
  intros H. destruct (H 0 5 0 0 0 seed1)%Z as [e He]; [left; lia|].
  discriminate He.
Qed.

(** ** The order of a tick *)

(** C2. In every tick of a model built by [__init__] the scheduler's pass
    is the kind-major sequence: all cells step, then all cars, then all
    factories, then all trees, each kind in registration order and each
    agent on the store left by the one before it, and after that every
    cell's pollution is multiplied by 0.9.  An exception of a phase is the
    exception of the tick. *)
Theorem tick_is_kind_major w h c f t seed m0 n m :
  PollutionModel.__init__ w h c f t seed = Ok m0 →
  run n m0 = Ok m →
  PollutionModel.step m = kind_major_tick (PollutionModel.collect m) ∧
  (∀ k (i : nat), i ∈ keys_of_kind k (schedule m)
                  ↔ ∃ a, schedule m !! i = Some a ∧ kind_of a = k) ∧
  (∀ k keys m1, run_steps (k :: keys) m1 = agent_step k m1 ≫= run_steps keys).
Proof.
  intros Hinit Hrun. split; [|split].
  - unfold PollutionModel.step. apply scheduler_step_kind_major. simpl.
    destruct (run_fixed _ _ _ Hrun) as (_ & _ & Hf).
    eapply kind_major_fixed; [done|]. by eapply init_kind_major.
  - intros k i. apply keys_of_kind_spec.
  - done.
Qed.

Lemma tick_is_kind_major_witness :
  PollutionModel.__init__ 1 3 0 1 0 seed1 = Ok strip ∧
  run 0 strip = Ok strip ∧
  PollutionModel.step strip = kind_major_tick (PollutionModel.collect strip).
Proof.
  split; [reflexivity|]. split; [reflexivity|].
  apply (tick_is_kind_major 1 3 0 1 0 seed1 strip 0 strip); reflexivity.
Defined.

(** ** Diffusion *)

(** C1 at a reachable state.  After one tick the 1x3 strip with a factory
    in the middle holds the field [0, 18, 0].  The cell phase of the next
    tick, in registration order, yields [9, 9, 9/2]: the middle cell reads
    the first cell's new value 9 and the last cell reads the middle
    cell's new value 9.  Diffusion from the pre-tick snapshot yields
    [9, 6, 9], and the reverse processing order yields [9/2, 9, 9]. *)
Theorem diffusion_reads_updated_neighbours :
  PollutionModel.__init__ 1 3 0 1 0 seed1 = Ok strip ∧
  ∃ m1, run 1 strip = Ok m1 ∧
    Qred <$> pollution_field (schedule m1) = [0; 18; 0]%Q ∧
    keys_of_kind KCell (schedule m1) = [0; 1; 2] ∧
    (∃ m2, phase KCell m1 = Ok m2 ∧
           Qred <$> pollution_field (schedule m2) = [9; 9; 9 # 2]%Q) ∧
    Qred <$> pollution_field (snapshot_diffuse m1) = [9; 6; 9]%Q ∧
    (∃ m2, run_steps [2; 1; 0] m1 = Ok m2 ∧
           Qred <$> pollution_field (schedule m2) = [9 # 2; 9; 9]%Q).
Proof.
  split; [reflexivity|].
  eexists. split; [vm_compute; reflexivity|].
  split; [vm_compute; reflexivity|].
  split; [vm_compute; reflexivity|].
  split; [eexists; split; vm_compute; reflexivity|].
  split; [vm_compute; reflexivity|].
  eexists; split; vm_compute; reflexivity.
Qed.

(** ** Pollution is never negative *)

Lemma Qplus_nonneg a b : (0 <= a)%Q → (0 <= b)%Q → (0 <= a + b)%Q.
Proof. intros Ha Hb. exact (Qplus_le_compat 0 a 0 b Ha Hb). Qed.

Lemma foldl_Qplus_nonneg l acc :
  (0 <= acc)%Q → Forall (λ v, 0 <= v)%Q l → (0 <= foldl Qplus acc l)%Q.
Proof.
  intros Hacc Hl. revert acc Hacc.
  induction Hl as [|v l Hv _ IH]; intros acc Hacc; simpl; [done|].
  apply IH. by apply Qplus_nonneg.
Qed.

Lemma sum_nonneg l : Forall (λ v, 0 <= v)%Q l → (0 <= sum l)%Q.
Proof. by apply foldl_Qplus_nonneg. Qed.

Lemma average_nonneg total n :
  (0 <= total)%Q → (0 <= total / inject_Z (Z.of_nat n + 1))%Q.
Proof.
  intros Ht. apply Qmult_le_0_compat; [done|]. apply Qinv_le_0_compat.
  unfold Qle. simpl. lia.
Qed.

Lemma cell_pollution_nonneg s pos :
  Forall nonneg s → Forall (λ v, 0 <= v)%Q (cell_pollution s pos).
Proof.
  intros Hs. apply Forall_forall. intros v Hv.
  apply elem_of_cell_pollution in Hv as [j Hj].
  by apply (proj1 (Forall_lookup _ _) Hs j (PollutionCell pos v)).
Qed.

Lemma update_cells_at_nonneg pos f s :
  (∀ v, 0 <= v → 0 <= f v)%Q → Forall nonneg s →
  Forall nonneg (update_cells_at pos f s).
Proof.
  intros Hf Hs. unfold update_cells_at. apply Forall_fmap.
  eapply Forall_impl; [exact Hs|]. intros [p v| | |] Ha; simpl; try done.
  destruct (decide (p = pos)); simpl; auto.
Qed.

Lemma agent_step_nonneg i m m' :
  Forall nonneg (schedule m) → agent_step i m = Ok m' → Forall nonneg (schedule m').
Proof.
  intros Hs. unfold agent_step.
  destruct (schedule m !! i) as [[pos v|id pos|id pos|id pos al]|] eqn:Hi.
  - intros [= <-]. simpl. apply Forall_insert; [done|]. simpl.
    apply average_nonneg, Qplus_nonneg.
    + apply sum_nonneg, Forall_bind. apply Forall_true. intros p. simpl.
      by apply cell_pollution_nonneg.
    + by apply (proj1 (Forall_lookup _ _) Hs i (PollutionCell pos v)).
  - unfold CarAgent.step. intros H. apply bind_Ok in H as ([np r] & _ & [= <-]).
    simpl. apply update_cells_at_nonneg.
    + intros v Hv. by apply Qplus_nonneg.
    + by apply Forall_insert.
  - intros [= <-]. simpl. apply update_cells_at_nonneg; [|done].
    intros v Hv. by apply Qplus_nonneg.
  - intros [= <-]. unfold TreeAgent.step. destruct al; [|done]. simpl.
    apply Forall_insert; [|done]. apply update_cells_at_nonneg; [|done].
    intros v Hv. by apply Qmult_le_0_compat.
  - by intros [= <-].
Qed.

Lemma run_steps_nonneg keys m m' :
  Forall nonneg (schedule m) → run_steps keys m = Ok m' → Forall nonneg (schedule m').
Proof.
  revert m. induction keys as [|k keys IH]; intros m Hs; simpl.
  - by intros [= <-].
  - intros H. apply bind_Ok in H as (m1 & H1 & H2).
    eapply IH; [|done]. by eapply agent_step_nonneg.
Qed.

Lemma agent_advance_nonneg i m :
  Forall nonneg (schedule m) → Forall nonneg (schedule (agent_advance i m)).
Proof.
  intros Hs. unfold agent_advance.
  destruct (schedule m !! i) as [[pos v| | |]|] eqn:Hi; try done.
  simpl. apply Forall_insert; [done|]. simpl.
  apply Qmult_le_0_compat; [|done].
  by apply (proj1 (Forall_lookup _ _) Hs i (PollutionCell pos v)).
Qed.

Lemma run_advances_nonneg keys m :
  Forall nonneg (schedule m) → Forall nonneg (schedule (run_advances keys m)).
Proof.
  unfold run_advances. revert m. induction keys as [|k keys IH]; intros m Hs; [done|].
  simpl. by apply IH, agent_advance_nonneg.
Qed.

Lemma model_step_nonneg m m' :
  Forall nonneg (schedule m) → PollutionModel.step m = Ok m' →
  Forall nonneg (schedule m').
Proof.
  intros Hs. unfold PollutionModel.step, SimultaneousActivation.step.
  intros H. apply bind_Ok in H as (m1 & H1 & [= <-]). simpl.
  apply run_advances_nonneg. by eapply run_steps_nonneg; [|done].
Qed.

Lemma run_nonneg n m m' :
  Forall nonneg (schedule m) → run n m = Ok m' → Forall nonneg (schedule m').
Proof.
  revert m. induction n as [|n IH]; intros m Hs; simpl.
  - by intros [= <-].
  - intros H. apply bind_Ok in H as (m1 & H1 & H2).
    eapply IH; [|done]. by eapply model_step_nonneg.
Qed.

Lemma pollution_field_app s1 s2 :
  pollution_field (s1 ++ s2) = pollution_field s1 ++ pollution_field s2.
Proof. apply bind_app. Qed.

Lemma pollution_field_column x ys :
  pollution_field (ys ≫= λ y, [PollutionCell (x, y) 0])
  = replicate (length (ys ≫= λ y : Z, [PollutionCell (x, y) 0])) 0%Q.
Proof.
  induction ys as [|y ys IH]; [done|].
  rewrite bind_cons, pollution_field_app, IH. done.
Qed.

(** The field of a fresh model is 0 everywhere. *)
Lemma create_cells_field w h :
  pollution_field (PollutionModel.create_cells w h)
  = replicate (length (PollutionModel.create_cells w h)) 0%Q.
Proof.
  unfold PollutionModel.create_cells.
  induction (range w) as [|x xs IH]; [done|].
  by rewrite bind_cons, pollution_field_app, length_app, replicate_add, IH,
             pollution_field_column.
Qed.

Lemma pollution_field_no_cell s :
  Forall (λ a, kind_of a ≠ KCell) s → pollution_field s = [].
Proof.
  unfold pollution_field. induction 1 as [|a s Ha _ IH]; [done|].
  rewrite bind_cons, IH. by destruct a.
Qed.

Lemma Forall2_no_cell {I} (P : I → Agent → Prop) (ids : list I) (new : list Agent) :
  (∀ i a, P i a → kind_of a ≠ KCell) →
  Forall2 P ids new → Forall (λ a, kind_of a ≠ KCell) new.
Proof. intros HP. induction 1; constructor; eauto. Qed.

Lemma init_field w h c f t seed m :
  PollutionModel.__init__ w h c f t seed = Ok m →
  pollution_field (schedule m)
  = replicate (length (PollutionModel.create_cells w h)) 0%Q.
Proof.
  intros H. apply init_Ok in H as (cars & facs & trees & -> & F1 & F2 & F3 & _).
  apply Forall2_no_cell in F1; [|by intros ?? [? [-> _]]].
  apply Forall2_no_cell in F2; [|by intros ?? [? [-> _]]].
  apply Forall2_no_cell in F3; [|by intros ?? [? [-> _]]].
  rewrite !pollution_field_app, create_cells_field.
  rewrite !pollution_field_no_cell by done.
  by rewrite !app_nil_r.
Qed.

Lemma elem_of_pollution_field s v :
  v ∈ pollution_field s ↔ ∃ pos, PollutionCell pos v ∈ s.
Proof.
  unfold pollution_field. rewrite list_elem_of_bind. split.
  - intros (a & Hv & Ha). destruct a; try (by apply elem_of_nil in Hv).
    apply list_elem_of_singleton in Hv as ->. eauto.
  - intros [pos Hin]. exists (PollutionCell pos v). split; [by left|done].
Qed.

Lemma nonneg_field s : Forall nonneg s ↔ Forall (λ v, 0 <= v)%Q (pollution_field s).
Proof.
  rewrite !Forall_forall. split.
  - intros H v Hv. apply elem_of_pollution_field in Hv as [pos Hin].
    exact (H _ Hin).
  - intros H [pos v| | |] Hin; simpl; try done.
    apply H, elem_of_pollution_field. eauto.
Qed.

(** C7. Every cell starts at 0, and in every state the simulation passes
    through, between ticks and inside a tick after any number of agent
    steps and of advances, every cell's pollution is at least 0. *)
Theorem pollution_never_negative w h c f t seed m0 :
  PollutionModel.__init__ w h c f t seed = Ok m0 →
  Forall (λ v, v = 0%Q) (pollution_field (schedule m0)) ∧
  ∀ n m, run n m0 = Ok m →
    Forall (λ v, 0 <= v)%Q (pollution_field (schedule m)) ∧
    ∀ keys m1, run_steps keys (PollutionModel.collect m) = Ok m1 →
      Forall (λ v, 0 <= v)%Q (pollution_field (schedule m1)) ∧
      ∀ keys', Forall (λ v, 0 <= v)%Q
                 (pollution_field (schedule (run_advances keys' m1))).
Proof.
  intros Hinit. pose proof (init_field _ _ _ _ _ _ _ Hinit) as Hf.
  split.
  - rewrite Hf. by apply Forall_replicate.
  - intros n m Hrun.
    assert (H0 : Forall nonneg (schedule m0)).
    { apply nonneg_field. rewrite Hf. by apply Forall_replicate. }
    assert (Hm : Forall nonneg (schedule m)) by (by eapply run_nonneg).
    split; [by apply nonneg_field|].
    intros keys m1 Hsteps.
    assert (H1 : Forall nonneg (schedule m1))
      by (by eapply (run_steps_nonneg keys (PollutionModel.collect m))).
    split; [by apply nonneg_field|].
    intros keys'. by apply nonneg_field, run_advances_nonneg.
Qed.

Lemma pollution_never_negative_witness :
  PollutionModel.__init__ 1 3 0 1 0 seed1 = Ok strip ∧
  Forall (λ v, v = 0%Q) (pollution_field (schedule strip)) ∧
  ∀ n m, run n strip = Ok m →
    Forall (λ v, 0 <= v)%Q (pollution_field (schedule m)).
Proof.
  split; [reflexivity|].
  destruct (pollution_never_negative 1 3 0 1 0 seed1 strip) as [H0 Hrun];
    [reflexivity|].
  split; [exact H0|]. intros n m Hn. by destruct (Hrun n m Hn).
Defined.

(** ** Metrics *)

Lemma average_pollution_loop s total count :
  foldl (λ (acc : Q * nat) agent,
           match agent with
           | PollutionCell _ v => ((acc.1 + v)%Q, S acc.2)
           | _ => acc
           end) (total, count) s
  = (foldl Qplus total (pollution_field s), count + length (pollution_field s)).
Proof.
  revert total count. induction s as [|a s IH]; intros total count; simpl.
  - by rewrite Nat.add_0_r.
  - destruct a; rewrite IH; try done. simpl. f_equal. lia.
Qed.

Lemma average_pollution_mean m :
  PollutionModel.average_pollution m = mean (pollution_field (schedule m)).
Proof.
  unfold PollutionModel.average_pollution. rewrite average_pollution_loop. simpl.
  destruct (pollution_field (schedule m)) as [|v l]; [done|].
  destruct (decide (0 < length (v :: l))) as [|Hn]; [done|].
  simpl in Hn. lia.
Qed.

Lemma tree_count_trees_with b s :
  length (filter (λ a, PollutionModel.is_tree b a) s) = length (trees_with b s).
Proof.
  unfold trees_with. induction s as [|a s IH]; [done|].
  rewrite filter_cons, bind_cons, length_app, <- IH.
  destruct a as [| | |id pos al]; simpl; try done.
  destruct al, b; simpl; done.
Qed.

Lemma scheduler_step_datacollector m m' :
  SimultaneousActivation.step m = Ok m' → datacollector m' = datacollector m.
Proof. intros H. by apply scheduler_step_fixed in H as (_ & _ & ? & _). Qed.

Lemma run_samples n m m' :
  run n m = Ok m' → length (datacollector m') = length (datacollector m) + n.
Proof.
  revert m. induction n as [|n IH]; intros m; simpl.
  - intros [= <-]. lia.
  - intros H. apply bind_Ok in H as (m1 & H1 & H2).
    apply IH in H2. apply scheduler_step_datacollector in H1.
    rewrite H2, H1. simpl. rewrite length_app. simpl. lia.
Qed.

(** ** The trees are counted once each *)

Lemma tree_counts_from s from :
  length (filter (λ a, PollutionModel.is_tree true a) s) +
  length (filter (λ a, PollutionModel.is_tree false a) s)
  = length (keys_where KTree from (kind_of <$> s)).
Proof.
  revert from. induction s as [|a s IH]; intros from; [done|].
  rewrite !filter_cons, fmap_cons. cbn [keys_where]. specialize (IH (S from)).
  destruct a as [| | |id pos al]; simpl; try done.
  destruct al; simpl; lia.
Qed.

Lemma tree_counts_total s :
  length (filter (λ a, PollutionModel.is_tree true a) s) +
  length (filter (λ a, PollutionModel.is_tree false a) s)
  = length (keys_of_kind KTree s).
Proof. apply tree_counts_from. Qed.

Lemma init_tree_keys w h c f t seed m :
  PollutionModel.__init__ w h c f t seed = Ok m →
  length (keys_of_kind KTree (schedule m)) = Z.to_nat t.
Proof.
  intros H. apply init_kinds in H.
  destruct (kind_major_keys _ _ _ _ _ H) as (_ & _ & _ & -> & _).
  apply length_seq.
Qed.

Lemma init_no_dead_tree w h c f t seed m :
  PollutionModel.__init__ w h c f t seed = Ok m →
  filter (λ a, PollutionModel.is_tree false a) (schedule m) = [].
Proof.
  intros H. apply init_Ok in H as (cars & facs & trees & -> & F1 & F2 & F3 & _).
  assert (Hnil : ∀ s, Forall (λ a, PollutionModel.is_tree false a = false) s →
                      filter (λ a, PollutionModel.is_tree false a) s = []).
  { induction 1 as [|a s Ha _ IH]; [done|].
    rewrite filter_cons, IH. destruct (decide _) as [Hd|]; [|done].
    rewrite Ha in Hd. done. }
  rewrite !filter_app, !Hnil; [done|..].
  - eapply Forall2_Forall_r; [exact F3|]. apply Forall_true.
    by intros i a [pos [-> _]].
  - eapply Forall2_Forall_r; [exact F2|]. apply Forall_true.
    by intros i a [pos [-> _]].
  - eapply Forall2_Forall_r; [exact F1|]. apply Forall_true.
    by intros i a [pos [-> _]].
  - unfold PollutionModel.create_cells. apply Forall_bind, Forall_true.
    intros x. simpl. apply Forall_bind, Forall_true. intros y. simpl.
    by constructor.
Qed.

Lemma mean_zeros n : (mean (replicate n 0%Q) == 0)%Q.
Proof.
  assert (Hsum : ∀ k, foldl Qplus 0%Q (replicate k 0%Q) = 0%Q)
    by (induction k as [|k IH]; [done | exact IH]).
  destruct n as [|n]; [done|]. unfold mean, sum.
  change (replicate (S n) 0%Q) with (0%Q :: replicate n 0%Q) at 1.
  cbv iota. rewrite Hsum. unfold Qdiv. apply Qmult_0_l.
Qed.

(** C8. A tick first appends exactly one sample to the collector and only
    then runs the scheduler, which never writes the collector; so after
    [n] ticks there are [n] samples, and the sample of a tick is taken
    from the state before the tick: the mean of the cells' pollution (0
    without cells), the number of trees alive and the number of trees
    dead.  The first sample of a fresh model is 0, all trees, none. *)
Theorem one_sample_per_tick w h c f t seed m0 n m m' :
  PollutionModel.__init__ w h c f t seed = Ok m0 →
  run n m0 = Ok m →
  PollutionModel.step m = Ok m' →
  length (datacollector m) = n ∧
  SimultaneousActivation.step (PollutionModel.collect m) = Ok m' ∧
  ∃ sample,
    datacollector (PollutionModel.collect m) = datacollector m ++ [sample] ∧
    datacollector m' = datacollector m ++ [sample] ∧
    Average_Pollution sample = mean (pollution_field (schedule m)) ∧
    Tree_Growth_Rate sample = length (trees_with true (schedule m)) ∧
    Tree_Death_Rate sample = length (trees_with false (schedule m)) ∧
    (n = 0 → (Average_Pollution sample == 0)%Q ∧
             Tree_Growth_Rate sample = Z.to_nat t ∧
             Tree_Death_Rate sample = 0).
Proof.
  intros Hinit Hrun Hstep. split; [|split; [exact Hstep|]].
  - apply run_samples in Hrun.
    destruct (init_Ok _ _ _ _ _ _ _ Hinit)
      as (cars & facs & trees & _ & _ & _ & _ & _ & _ & _ & Hd).
    by rewrite Hd in Hrun.
  - eexists. split; [reflexivity|]. split.
    { apply scheduler_step_datacollector in Hstep. exact Hstep. }
    cbn [Average_Pollution Tree_Growth_Rate Tree_Death_Rate].
    split; [apply average_pollution_mean|].
    split; [apply tree_count_trees_with|].
    split; [apply tree_count_trees_with|].
    intros ->. injection Hrun as <-. split; [|split].
    + rewrite average_pollution_mean, (init_field _ _ _ _ _ _ _ Hinit).
      apply mean_zeros.
    + pose proof (tree_counts_total (schedule m0)) as Htot.
      rewrite (init_no_dead_tree _ _ _ _ _ _ _ Hinit) in Htot.
      rewrite (init_tree_keys _ _ _ _ _ _ _ Hinit) in Htot.
      unfold PollutionModel.tree_growth_rate. simpl in Htot. lia.
    + unfold PollutionModel.tree_death_rate.
      by rewrite (init_no_dead_tree _ _ _ _ _ _ _ Hinit).
Qed.

Lemma one_sample_per_tick_witness :
  PollutionModel.__init__ 1 3 0 1 0 seed1 = Ok strip ∧
  run 0 strip = Ok strip ∧
  ∃ m', PollutionModel.step strip = Ok m' ∧ length (datacollector m') = 1.
Proof.
  split; [reflexivity|]. split; [reflexivity|].
  eexists. split; [vm_compute; reflexivity|].
  edestruct (one_sample_per_tick 1 3 0 1 0 seed1 strip 0 strip)
    as (_ & _ & sample & _ & Hd & _);
    [reflexivity | reflexivity | vm_compute; reflexivity |].
  rewrite Hd. reflexivity.
Defined.

(** C10. With a non-negative tree count [t] at construction, in every
    state reached by ticks the trees alive and the trees dead add up to
    [t], and so do the two counts of every recorded sample. *)
Theorem mitigator_counts_partition w h c f t seed m0 n m :
  (0 ≤ t)%Z →
  PollutionModel.__init__ w h c f t seed = Ok m0 →
  run n m0 = Ok m →
  Z.of_nat (PollutionModel.tree_growth_rate m + PollutionModel.tree_death_rate m) = t ∧
  Forall (λ s, Z.of_nat (Tree_Growth_Rate s + Tree_Death_Rate s) = t)
         (datacollector m).
Proof.
  intros Ht Hinit Hrun.
  assert (Hcount : ∀ k m1, run k m0 = Ok m1 →
            PollutionModel.tree_growth_rate m1 + PollutionModel.tree_death_rate m1
            = Z.to_nat t).
  { intros k m1 Hk. unfold PollutionModel.tree_growth_rate, PollutionModel.tree_death_rate.
    rewrite tree_counts_total.
    destruct (run_fixed _ _ _ Hk) as (_ & _ & Hf).
    rewrite (keys_of_kind_fixed _ _ _ Hf). by eapply init_tree_keys. }
  split; [rewrite (Hcount n m Hrun); lia|].
  assert (H0 : Forall (λ s, Z.of_nat (Tree_Growth_Rate s + Tree_Death_Rate s) = t)
                      (datacollector m0)).
  { destruct (init_Ok _ _ _ _ _ _ _ Hinit)
      as (cars & facs & trees & _ & _ & _ & _ & _ & _ & _ & ->).
    constructor. }
  assert (Hc0 : PollutionModel.tree_growth_rate m0 + PollutionModel.tree_death_rate m0
                = Z.to_nat t) by (by apply (Hcount 0)).
  clear Hinit Hcount. revert m0 Hrun H0 Hc0.
  induction n as [|n IH]; intros m0 Hrun H0 Hc0; simpl in Hrun.
  - by injection Hrun as <-.
  - apply bind_Ok in Hrun as (m1 & H1 & H2). apply (IH m1 H2).
    + rewrite (scheduler_step_datacollector _ _ H1). simpl.
      apply Forall_app_2; [done|]. constructor; [|done]. simpl. lia.
    + apply model_step_fixed in H1 as (_ & _ & Hf).
      unfold PollutionModel.tree_growth_rate, PollutionModel.tree_death_rate in *.
      rewrite tree_counts_total in *. by rewrite (keys_of_kind_fixed _ _ _ Hf).
Qed.

Lemma mitigator_counts_partition_witness :
  (0 ≤ 1)%Z ∧
  PollutionModel.__init__ 1 1 0 0 1 seed1 = Ok grove ∧
  run 0 grove = Ok grove ∧
  Z.of_nat (PollutionModel.tree_growth_rate grove + PollutionModel.tree_death_rate grove)
  = 1%Z.
Proof.
  split; [lia|]. split; [reflexivity|]. split; [reflexivity|].
  destruct (mitigator_counts_partition 1 1 0 0 1 seed1 grove 0 grove) as [H _];
    [lia | reflexivity | reflexivity | exact H].
Defined.

(** * Further properties of the model *)

(** ** Construction on a proper grid *)

Lemma create_cells_length w h :
  length (PollutionModel.create_cells w h) = Z.to_nat w * Z.to_nat h.
Proof.
  unfold PollutionModel.create_cells. rewrite <- (range_length w).
  induction (range w) as [|x xs IH]; [done|].
  rewrite bind_cons, length_app, IH. simpl. f_equal.
  rewrite <- (range_length h). clear IH.
  induction (range h) as [|y ys IH]; [done|].
  rewrite bind_cons. simpl. by rewrite IH.
Qed.

Lemma add_agents_random w h mk ids st st' :
  PollutionModel.add_agents w h mk ids st = Ok st' →
  oracle st'.2 = oracle st.2 ∧ drawn st'.2 = drawn st.2 + 2 * length ids.
Proof.
  revert st. induction ids as [|i ids IH]; intros st; simpl.
  - intros [= <-]. split; [done|lia].
  - intros H. apply bind_Ok in H as (st1 & H1 & H2).
    apply IH in H2 as [Ho Hd].
    unfold PollutionModel.add_agent, randrange, randbelow in H1.
    destruct (0 <? w)%Z; [|done]. simpl in H1.
    destruct (0 <? h)%Z; [|done]. simpl in H1.
    destruct (decide _) as [|Hfresh] in H1; [done|].
    injection H1 as <-. simpl in Ho, Hd. split; [done|]. rewrite Hd. simpl. lia.
Qed.

Lemma init_random w h c f t seed m :
  PollutionModel.__init__ w h c f t seed = Ok m →
  oracle (random m) = oracle seed ∧
  drawn (random m) = drawn seed + 2 * (Z.to_nat c + Z.to_nat f + Z.to_nat t).
Proof.
  unfold PollutionModel.__init__. intros H.
  apply bind_Ok in H as (st1 & H1 & H). apply bind_Ok in H as (st2 & H2 & H).
  apply bind_Ok in H as (st3 & H3 & H). injection H as <-. simpl.
  apply add_agents_random in H1 as [O1 D1], H2 as [O2 D2], H3 as [O3 D3].
  rewrite !range_length in *. simpl in *. split; [congruence|lia].
Qed.

(** ** Agents stay on the grid *)

Lemma update_cells_at_in_bounds w h pos f s :
  Forall (λ a, in_bounds w h (agent_pos a)) s →
  Forall (λ a, in_bounds w h (agent_pos a)) (update_cells_at pos f s).
Proof.
  intros Hs. unfold update_cells_at. apply Forall_fmap.
  eapply Forall_impl; [exact Hs|]. intros [p v| | |] Ha; simpl in *; try done.
  by destruct (decide (p = pos)).
Qed.

Lemma agent_step_in_bounds i m m' :
  placed_in_bounds m → agent_step i m = Ok m' → placed_in_bounds m'.
Proof.
  unfold placed_in_bounds. intros Hs Hstep.
  destruct (agent_step_stable _ _ _ Hstep) as (-> & -> & _ & _).
  revert Hstep. unfold agent_step.
  destruct (schedule m !! i) as [[pos v|id pos|id pos|id pos al]|] eqn:Hi.
  - intros [= <-]. simpl. apply Forall_insert; [done|].
    exact (proj1 (Forall_lookup _ _) Hs i _ Hi).
  - unfold CarAgent.step. intros H. apply bind_Ok in H as ([np r] & Hch & [= <-]).
    simpl. apply update_cells_at_in_bounds, Forall_insert; [done|]. simpl.
    apply choice_Ok in Hch as [Hnp _].
    apply list_elem_of_lookup_2, elem_of_get_neighborhood in Hnp. tauto.
  - intros [= <-]. simpl. by apply update_cells_at_in_bounds.
  - intros [= <-]. unfold TreeAgent.step. destruct al; [|done]. simpl.
    apply Forall_insert; [by apply update_cells_at_in_bounds|].
    exact (proj1 (Forall_lookup _ _) Hs i _ Hi).
  - by intros [= <-].
Qed.

Lemma run_steps_in_bounds keys m m' :
  placed_in_bounds m → run_steps keys m = Ok m' → placed_in_bounds m'.
Proof.
  revert m. induction keys as [|k keys IH]; intros m Hs; simpl.
  - by intros [= <-].
  - intros H. apply bind_Ok in H as (m1 & H1 & H2).
    eapply IH; [|done]. by eapply agent_step_in_bounds.
Qed.

Lemma agent_advance_in_bounds i m :
  placed_in_bounds m → placed_in_bounds (agent_advance i m).
Proof.
  unfold placed_in_bounds, agent_advance. intros Hs.
  destruct (schedule m !! i) as [[pos v| | |]|] eqn:Hi; try done.
  simpl. apply Forall_insert; [done|].
  exact (proj1 (Forall_lookup _ _) Hs i _ Hi).
Qed.

Lemma run_advances_in_bounds keys m :
  placed_in_bounds m → placed_in_bounds (run_advances keys m).
Proof.
  unfold run_advances. revert m. induction keys as [|k keys IH]; intros m Hs; [done|].
  simpl. by apply IH, agent_advance_in_bounds.
Qed.

Lemma model_step_in_bounds m m' :
  placed_in_bounds m → PollutionModel.step m = Ok m' → placed_in_bounds m'.
Proof.
  intros Hs. unfold PollutionModel.step, SimultaneousActivation.step.
  intros H. apply bind_Ok in H as (m1 & H1 & [= <-]).
  apply (run_steps_in_bounds _ (PollutionModel.collect m)) in H1; [|done].
  exact (run_advances_in_bounds (seq 0 (length (schedule m1))) m1 H1).
Qed.

Lemma run_in_bounds n m m' :
  placed_in_bounds m → run n m = Ok m' → placed_in_bounds m'.
Proof.
  revert m. induction n as [|n IH]; intros m Hs; simpl.
  - by intros [= <-].
  - intros H. apply bind_Ok in H as (m1 & H1 & H2).
    eapply IH; [|done]. by eapply model_step_in_bounds.
Qed.

Lemma create_cells_in_bounds w h :
  Forall (λ a, in_bounds w h (agent_pos a)) (PollutionModel.create_cells w h).
Proof.
  apply Forall_forall. intros a Ha. unfold PollutionModel.create_cells in Ha.
  apply list_elem_of_bind in Ha as (x & Ha & Hx).
  apply list_elem_of_bind in Ha as (y & Ha & Hy).
  apply list_elem_of_singleton in Ha as ->.
  apply elem_of_range in Hx, Hy. by split.
Qed.

Lemma init_in_bounds w h c f t seed m :
  PollutionModel.__init__ w h c f t seed = Ok m → placed_in_bounds m.
Proof.
  intros H. apply init_Ok in H as (cars & facs & trees & Hs & F1 & F2 & F3 & Hw & Hh & _).
  unfold placed_in_bounds. rewrite Hs, Hw, Hh.
  repeat apply Forall_app_2.
  - apply create_cells_in_bounds.
  - eapply Forall2_Forall_r; [exact F1|]. apply Forall_true.
    by intros i a [pos [-> ?]].
  - eapply Forall2_Forall_r; [exact F2|]. apply Forall_true.
    by intros i a [pos [-> ?]].
  - eapply Forall2_Forall_r; [exact F3|]. apply Forall_true.
    by intros i a [pos [-> ?]].
Qed.

(** X2. Every agent of a constructed model stands on a position of the
    grid, and after any number of ticks every agent still does: a car
    only ever moves to a position inside the grid, and nothing else
    moves. *)
Theorem agents_stay_on_the_grid w h c f t seed m0 n m :
  PollutionModel.__init__ w h c f t seed = Ok m0 →
  run n m0 = Ok m →
  width m = w ∧ height m = h ∧
  ∀ (i : nat) a, schedule m !! i = Some a → in_bounds w h (agent_pos a).
Proof.
  intros Hinit Hrun.
  pose proof (init_in_bounds _ _ _ _ _ _ _ Hinit) as H0.
  pose proof (run_in_bounds _ _ _ H0 Hrun) as Hm.
  destruct (run_fixed _ _ _ Hrun) as (Hw & Hh & _).
  destruct (init_Ok _ _ _ _ _ _ _ Hinit)
    as (cars & facs & trees & _ & _ & _ & _ & Hw0 & Hh0 & _).
  unfold placed_in_bounds in Hm. rewrite Hw, Hh, Hw0, Hh0 in Hm.
  split; [congruence|]. split; [congruence|].
  intros i a Hi. exact (proj1 (Forall_lookup _ _) Hm i a Hi).
Qed.

Lemma agents_stay_on_the_grid_witness :
  PollutionModel.__init__ 2 1 1 0 0 seed1 = Ok lane ∧
  run 0 lane = Ok lane ∧
  ∀ (i : nat) a, schedule lane !! i = Some a → in_bounds 2 1 (agent_pos a).
Proof.
  split; [reflexivity|]. split; [reflexivity|].
  apply (agents_stay_on_the_grid 2 1 1 0 0 seed1 lane 0 lane); reflexivity.
Defined.

(** ** Ticks that cannot fail *)

Lemma agent_step_succeeds i m :
  placed_in_bounds m →
  (1 < width m ∨ 1 < height m)%Z ∨ Forall (λ k, k ≠ KCar) (kind_of <$> schedule m) →
  ∃ m', agent_step i m = Ok m'.
Proof.
  intros Hs Hok. unfold agent_step.
  destruct (schedule m !! i) as [[pos v|id pos|id pos|id pos al]|] eqn:Hi; eauto.
  destruct Hok as [Hwh|Hnocar].
  - pose proof (proj1 (Forall_lookup _ _) Hs i _ Hi) as Hpos. simpl in Hpos.
    unfold CarAgent.step.
    destruct (choice_nonempty
                (MultiGrid.get_neighborhood (width m) (height m) pos) (random m))
      as (np & _ & ->); [by apply get_neighborhood_nonempty|].
    simpl. eauto.
  - exfalso.
    apply (proj1 (Forall_lookup _ _) Hnocar i KCar); [|done].
    by rewrite list_lookup_fmap, Hi.
Qed.

Lemma run_steps_succeeds keys m :
  placed_in_bounds m →
  (1 < width m ∨ 1 < height m)%Z ∨ Forall (λ k, k ≠ KCar) (kind_of <$> schedule m) →
  ∃ m', run_steps keys m = Ok m'.
Proof.
  revert m. induction keys as [|k keys IH]; intros m Hs Hok; simpl; [eauto|].
  destruct (agent_step_succeeds k m Hs Hok) as [m1 H1]. rewrite H1. simpl.
  apply IH; [by eapply agent_step_in_bounds|].
  destruct (agent_step_stable _ _ _ H1) as (-> & -> & _ & Hf).
  by rewrite (kind_of_fixed _ _ Hf).
Qed.

Lemma agent_step_steps i m m' : agent_step i m = Ok m' → steps m' = steps m.
Proof.
  unfold agent_step.
  destruct (schedule m !! i) as [[pos v|id pos|id pos|id pos al]|].
  - by intros [= <-].
  - unfold CarAgent.step. intros H. by apply bind_Ok in H as ([np r] & _ & [= <-]).
  - by intros [= <-].
  - intros [= <-]. unfold TreeAgent.step. by destruct al.
  - by intros [= <-].
Qed.

Lemma run_steps_steps keys m m' : run_steps keys m = Ok m' → steps m' = steps m.
Proof.
  revert m. induction keys as [|k keys IH]; intros m; simpl.
  - by intros [= <-].
  - intros H. apply bind_Ok in H as (m1 & H1 & H2).
    rewrite (IH _ H2). by eapply agent_step_steps.
Qed.

Lemma model_step_steps m m' : PollutionModel.step m = Ok m' → steps m' = S (steps m).
Proof.
  unfold PollutionModel.step, SimultaneousActivation.step.
  intros H. apply bind_Ok in H as (m1 & H1 & [= <-]). simpl.
  rewrite run_advances_all. simpl.
  by rewrite (run_steps_steps _ (PollutionModel.collect m) _ H1).
Qed.

Lemma model_step_succeeds m :
  placed_in_bounds m →
  (1 < width m ∨ 1 < height m)%Z ∨ Forall (λ k, k ≠ KCar) (kind_of <$> schedule m) →
  ∃ m', PollutionModel.step m = Ok m'.
Proof.
  intros Hs Hok. unfold PollutionModel.step, SimultaneousActivation.step.
  destruct (run_steps_succeeds (seq 0 (length (schedule (PollutionModel.collect m))))
              (PollutionModel.collect m) Hs Hok) as [m1 ->].
  simpl. eauto.
Qed.

Lemma run_succeeds n m :
  placed_in_bounds m →
  (1 < width m ∨ 1 < height m)%Z ∨ Forall (λ k, k ≠ KCar) (kind_of <$> schedule m) →
  ∃ m', run n m = Ok m' ∧ steps m' = steps m + n.
Proof.
  revert m. induction n as [|n IH]; intros m Hs Hok; simpl.
  - exists m. split; [done|lia].
  - destruct (model_step_succeeds m Hs Hok) as [m1 H1]. rewrite H1. simpl.
    destruct (IH m1) as (m' & Hrun & Hsteps).
    + by eapply model_step_in_bounds.
    + destruct (model_step_fixed _ _ H1) as (-> & -> & Hf).
      by rewrite (kind_of_fixed _ _ Hf).
    + exists m'. split; [done|]. rewrite Hsteps, (model_step_steps _ _ H1). lia.
Qed.

(** X3. A constructed model whose grid has more than one cell, or which
    has no car, never fails: any number of ticks runs to completion, and
    the scheduler has then counted exactly that many steps.  (The 1x1
    grid with a car is the only population whose tick raises.) *)
Theorem ticks_never_fail w h c f t seed m0 n :
  PollutionModel.__init__ w h c f t seed = Ok m0 →
  (1 < w ∨ 1 < h ∨ c ≤ 0)%Z →
  ∃ m, run n m0 = Ok m ∧ steps m = n.
Proof.
  intros Hinit Hok.
  destruct (init_Ok _ _ _ _ _ _ _ Hinit)
    as (cars & facs & trees & _ & _ & _ & _ & Hw & Hh & Hst & _).
  destruct (run_succeeds n m0) as (m & Hrun & Hsteps).
  - by eapply init_in_bounds.
  - rewrite Hw, Hh. destruct Hok as [?|[?|Hc]]; [left; lia | left; lia | right].
    rewrite (init_kinds _ _ _ _ _ _ _ Hinit).
    replace (Z.to_nat c) with 0 by lia. simpl.
    repeat apply Forall_app_2; by apply Forall_replicate.
  - exists m. split; [done|]. rewrite Hsteps, Hst. done.
Qed.

Lemma ticks_never_fail_witness :
  PollutionModel.__init__ 2 1 1 0 0 seed1 = Ok lane ∧
  ∃ m, run 5 lane = Ok m ∧ steps m = 5.
Proof.
  split; [reflexivity|].
  apply (ticks_never_fail 2 1 1 0 0 seed1 lane 5); [reflexivity | lia].
Defined.

(** ** One pollution cell per position *)

Lemma cell_pollution_bind s pos :
  cell_pollution s pos
  = s ≫= (λ a, match a with
               | PollutionCell p v => if decide (p = pos) then [v] else []
               | _ => []
               end).
Proof.
  unfold cell_pollution, MultiGrid.get_cell_list_contents.
  induction s as [|a s IH]; [done|].
  rewrite filter_cons, !bind_cons, <- IH.
  destruct a as [p v| | |]; simpl; destruct (decide _); by rewrite ?bind_cons.
Qed.

Lemma cell_pollution_app s1 s2 pos :
  cell_pollution (s1 ++ s2) pos = cell_pollution s1 pos ++ cell_pollution s2 pos.
Proof. rewrite !cell_pollution_bind. apply bind_app. Qed.

Lemma cell_pollution_nil s pos :
  (∀ v, PollutionCell pos v ∉ s) → cell_pollution s pos = [].
Proof.
  intros Hno. destruct (cell_pollution s pos) as [|v l] eqn:E; [done|].
  assert (Hv : v ∈ cell_pollution s pos) by (rewrite E; by left).
  apply elem_of_cell_pollution in Hv as [j Hj].
  destruct (Hno v). by eapply list_elem_of_lookup_2.
Qed.

Lemma cell_pollution_length_fixed (s s' : list Agent) pos :
  fixed_part <$> s' = fixed_part <$> s →
  length (cell_pollution s' pos) = length (cell_pollution s pos).
Proof.
  rewrite !cell_pollution_bind. revert s'.
  induction s as [|a s IH]; intros [|a' s'] H; simplify_eq/=; [done|].
  rewrite !length_app. f_equal; [|by apply IH].
  destruct a, a'; simplify_eq/=; try done. by destruct (decide _).
Qed.

Lemma one_cell_per_position_fixed w h (s s' : list Agent) :
  fixed_part <$> s' = fixed_part <$> s →
  one_cell_per_position w h s → one_cell_per_position w h s'.
Proof.
  intros Hf Hs pos. pose proof (cell_pollution_length_fixed _ _ pos Hf) as Hlen.
  destruct (Hs pos) as [Hin Hout]. split.
  - intros Hb. destruct (Hin Hb) as [v Hv]. rewrite Hv in Hlen.
    destruct (cell_pollution s' pos) as [|v' [|]]; simplify_eq/=. eauto.
  - intros Hb. rewrite (Hout Hb) in Hlen.
    by destruct (cell_pollution s' pos).
Qed.

Lemma NoDup_range n : NoDup (range n).
Proof.
  unfold range. apply NoDup_fmap_2; [intros ???; lia | apply NoDup_seq].
Qed.

Lemma cell_pollution_column x ys pos :
  NoDup ys → pos.1 = x → pos.2 ∈ ys →
  cell_pollution (ys ≫= λ y, [PollutionCell (x, y) 0]) pos = [0%Q].
Proof.
  intros Hnd Hx. induction Hnd as [|y ys Hy Hnd IH]; intros Hin.
  { by apply elem_of_nil in Hin. }
  rewrite bind_cons, cell_pollution_app.
  destruct (decide (pos.2 = y)) as [E|Hne].
  - rewrite (cell_pollution_nil (ys ≫= _)).
    + rewrite cell_pollution_bind. simpl. rewrite !app_nil_r.
      destruct (decide _) as [|Hp]; [reflexivity|].
      destruct Hp. destruct pos. simpl in *. by subst.

    + intros v Hv. apply list_elem_of_bind in Hv as (y' & Hv & Hy').
      apply list_elem_of_singleton in Hv.
      injection Hv as -> _. simpl in E. subst y'. by destruct Hy.
  - apply elem_of_cons in Hin as [?|Hin]; [done|].
    rewrite IH by done. rewrite cell_pollution_bind. simpl.
    destruct (decide _) as [Hp|]; [|reflexivity].
    destruct Hne. by rewrite <- Hp.
Qed.

Lemma cell_pollution_create_cells w h pos :
  in_bounds w h pos → cell_pollution (PollutionModel.create_cells w h) pos = [0%Q].
Proof.
  intros [Hx Hy]. apply elem_of_range in Hx, Hy.
  unfold PollutionModel.create_cells.
  pose proof (NoDup_range w) as Hnd.
  induction Hnd as [|x xs Hxs Hnd IH].
  { by apply elem_of_nil in Hx. }
  rewrite bind_cons, cell_pollution_app.
  destruct (decide (pos.1 = x)) as [E|Hne].
  - rewrite (cell_pollution_column x) by (done || apply NoDup_range).
    rewrite (cell_pollution_nil (xs ≫= _)); [done|].
    intros v Hv. apply list_elem_of_bind in Hv as (x' & Hv & Hx').
    apply list_elem_of_bind in Hv as (y' & Hv & _).
    apply list_elem_of_singleton in Hv.
    injection Hv as -> _. simpl in E. subst x'. by destruct Hxs.
  - apply elem_of_cons in Hx as [?|Hx]; [done|].
    rewrite IH by done. rewrite cell_pollution_nil; [done|].
    intros v Hv. apply list_elem_of_bind in Hv as (y' & Hv & _).
    apply list_elem_of_singleton in Hv.
    injection Hv as -> _. by destruct Hne.
Qed.

Lemma init_one_cell_per_position w h c f t seed m :
  PollutionModel.__init__ w h c f t seed = Ok m →
  one_cell_per_position w h (schedule m).
Proof.
  intros H. apply init_Ok in H as (cars & facs & trees & -> & F1 & F2 & F3 & _).
  apply Forall2_no_cell in F1; [|by intros ?? [? [-> _]]].
  apply Forall2_no_cell in F2; [|by intros ?? [? [-> _]]].
  apply Forall2_no_cell in F3; [|by intros ?? [? [-> _]]].
  assert (Hnil : ∀ s pos, Forall (λ a, kind_of a ≠ KCell) s → cell_pollution s pos = []).
  { intros s pos Hs. apply cell_pollution_nil. intros v Hv.
    by apply (proj1 (Forall_forall _ _) Hs _ Hv). }
  intros pos. rewrite !cell_pollution_app.
  rewrite (Hnil cars), (Hnil facs), (Hnil trees), !app_nil_r by done. split.
  - intros Hb. exists 0%Q. by apply cell_pollution_create_cells.
  - intros Hb. apply cell_pollution_nil. intros v Hv. apply Hb.
    exact (proj1 (Forall_forall _ _) (create_cells_in_bounds w h) _ Hv).
Qed.

(** X4. At construction and after any number of ticks every position of
    the grid holds exactly one pollution cell, and no cell lies outside
    the grid: reading the pollution of a position of the grid always
    finds exactly one value. *)
Theorem exactly_one_cell_per_position w h c f t seed m0 n m :
  PollutionModel.__init__ w h c f t seed = Ok m0 →
  run n m0 = Ok m →
  ∀ pos,
    (in_bounds w h pos → ∃ v, cell_pollution (schedule m) pos = [v]) ∧
    (¬ in_bounds w h pos → cell_pollution (schedule m) pos = []).
Proof.
  intros Hinit Hrun. destruct (run_fixed _ _ _ Hrun) as (_ & _ & Hf).
  apply (one_cell_per_position_fixed w h _ _ Hf).
  by eapply init_one_cell_per_position.
Qed.

Lemma exactly_one_cell_per_position_witness :
  PollutionModel.__init__ 2 1 1 0 0 seed1 = Ok lane ∧
  run 0 lane = Ok lane ∧
  ∃ v, cell_pollution (schedule lane) (1, 0)%Z = [v].
Proof.
  split; [reflexivity|]. split; [reflexivity|].
  apply (exactly_one_cell_per_position 2 1 1 0 0 seed1 lane 0 lane);
    [reflexivity | reflexivity |].
  unfold in_bounds. simpl. lia.
Defined.

(** ** Scheduler keys are unique *)

Lemma unique_id_fixed (s s' : list Agent) :
  fixed_part <$> s' = fixed_part <$> s → unique_id <$> s' = unique_id <$> s.
Proof.
  intros H.
  rewrite <- (list_fmap_ext (unique_id ∘ fixed_part) unique_id s'),
          <- (list_fmap_ext (unique_id ∘ fixed_part) unique_id s)
    by (by intros ? []).
  by rewrite !list_fmap_compose, H.
Qed.

Lemma Forall2_unique_id (R : Z → Agent → Prop) (g : Z → Z) (ids : list Z) new :
  (∀ i a, R i a → unique_id a = IdKey (g i)) →
  Forall2 R ids new → unique_id <$> new = (λ i, IdKey (g i)) <$> ids.
Proof.
  intros HR. induction 1 as [|i a ids new Hia _ IH]; csimpl; [done|].
  by rewrite (HR _ _ Hia), IH.
Qed.

Lemma NoDup_create_cells_keys w h :
  NoDup (unique_id <$> PollutionModel.create_cells w h).
Proof.
  assert (Hin : ∀ a, a ∈ PollutionModel.create_cells w h →
                     a = PollutionCell (agent_pos a) 0).
  { intros a Ha. unfold PollutionModel.create_cells in Ha.
    apply list_elem_of_bind in Ha as (x & Ha & _).
    apply list_elem_of_bind in Ha as (y & Ha & _).
    by apply list_elem_of_singleton in Ha as ->. }
  apply NoDup_fmap_2_strong.
  - intros a b Ha Hb Hab. rewrite (Hin a Ha), (Hin b Hb) in *.
    simpl in Hab. by injection Hab as ->.
  - unfold PollutionModel.create_cells. apply NoDup_bind.
    + intros x1 x2 a _ _ H1 H2.
      apply list_elem_of_bind in H1 as (y1 & H1 & _), H2 as (y2 & H2 & _).
      apply list_elem_of_singleton in H1, H2. congruence.
    + intros x _. apply NoDup_bind; [|intros; apply NoDup_singleton|apply NoDup_range].
      intros y1 y2 a _ _ H1 H2. apply list_elem_of_singleton in H1, H2. congruence.
    + apply NoDup_range.
Qed.

Lemma elem_of_id_keys (g : Z → Z) (ids : list Z) k :
  k ∈ (λ i, IdKey (g i)) <$> ids ↔ ∃ i, k = IdKey (g i) ∧ i ∈ ids.
Proof. apply list_elem_of_fmap. Qed.

Lemma NoDup_id_keys (g : Z → Z) n :
  (∀ i j, g i = g j → i = j) → NoDup ((λ i, IdKey (g i)) <$> range n).
Proof.
  intros Hg. apply NoDup_fmap_2; [|apply NoDup_range].
  intros i j [= H]. by apply Hg.
Qed.

Lemma init_unique_ids w h c f t seed m :
  (0 ≤ f)%Z →
  PollutionModel.__init__ w h c f t seed = Ok m →
  NoDup (unique_id <$> schedule m).
Proof.
  intros Hf H.
  apply init_Ok in H as (cars & facs & trees & -> & F1 & F2 & F3 & _).
  apply (Forall2_unique_id _ (λ i, i)) in F1; [|by intros ?? [? [-> _]]].
  apply (Forall2_unique_id _ (λ i, c + i)%Z) in F2; [|by intros ?? [? [-> _]]].
  apply (Forall2_unique_id _ (λ i, c + f + i)%Z) in F3; [|by intros ?? [? [-> _]]].
  rewrite !fmap_app, F1, F2, F3.
  apply NoDup_app. split; [apply NoDup_create_cells_keys|]. split.
  { intros k Hk Hk'. apply list_elem_of_fmap in Hk as (a & -> & Ha).
    assert (∃ pos, unique_id a = PosKey pos) as [pos E].
    { unfold PollutionModel.create_cells in Ha.
      apply list_elem_of_bind in Ha as (x & Ha & _).
      apply list_elem_of_bind in Ha as (y & Ha & _).
      apply list_elem_of_singleton in Ha as ->. by eexists. }
    rewrite E in Hk'. rewrite !elem_of_app, !elem_of_id_keys in Hk'.
    destruct Hk' as [(i & ? & _)|[(i & ? & _)|(i & ? & _)]]; done. }
  apply NoDup_app. split; [apply NoDup_id_keys; auto|]. split.
  { intros k Hk Hk'. apply elem_of_id_keys in Hk as (i & -> & Hi).
    apply elem_of_range in Hi.
    rewrite elem_of_app, !elem_of_id_keys in Hk'.
    destruct Hk' as [(j & [= E] & Hj)|(j & [= E] & Hj)];
      apply elem_of_range in Hj; lia. }
  apply NoDup_app. split; [apply NoDup_id_keys; intros; lia|]. split.
  { intros k Hk Hk'. apply elem_of_id_keys in Hk as (i & -> & Hi).
    apply elem_of_range in Hi.
    apply elem_of_id_keys in Hk' as (j & [= E] & Hj).
    apply elem_of_range in Hj. lia. }
  apply NoDup_id_keys. intros; lia.
Qed.

(** X5. With a non-negative factory count the agents of a constructed
    model have pairwise different scheduler keys (a cell's key is its
    position, the keys of cars, factories and trees are consecutive
    integers), and ticks keep the keys: the scheduler never holds two
    agents under one key. *)
Theorem scheduler_keys_are_unique w h c f t seed m0 n m :
  (0 ≤ f)%Z →
  PollutionModel.__init__ w h c f t seed = Ok m0 →
  run n m0 = Ok m →
  NoDup (unique_id <$> schedule m) ∧
  unique_id <$> schedule m = unique_id <$> schedule m0.
Proof.
  intros Hf Hinit Hrun. destruct (run_fixed _ _ _ Hrun) as (_ & _ & Hfix).
  rewrite (unique_id_fixed _ _ Hfix). split; [|done].
  by eapply init_unique_ids.
Qed.

Lemma scheduler_keys_are_unique_witness :
  (0 ≤ 1)%Z ∧
  PollutionModel.__init__ 1 3 0 1 0 seed1 = Ok strip ∧
  run 0 strip = Ok strip ∧
  NoDup (unique_id <$> schedule strip).
Proof.
  split; [lia|]. split; [reflexivity|]. split; [reflexivity|].
  destruct (scheduler_keys_are_unique 1 3 0 1 0 seed1 strip 0 strip) as [H _];
    [lia | reflexivity | reflexivity | exact H].
Defined.

(** ** Construction never meets a used key *)

Lemma add_agents_succeeds w h mk (g : Z → Z) (ids : list Z) st :
  (0 < w)%Z → (0 < h)%Z →
  (∀ i pos, unique_id (mk i pos) = IdKey (g i)) →
  NoDup (g <$> ids) →
  (∀ i, i ∈ ids → IdKey (g i) ∉ unique_id <$> st.1) →
  ∃ st', PollutionModel.add_agents w h mk ids st = Ok st'.
Proof.
  intros Hw Hh Hmk. apply Z.ltb_lt in Hw, Hh.
  revert st. induction ids as [|i ids IH]; intros st Hnd Hfresh; simpl; [eauto|].
  apply NoDup_cons in Hnd as [Hi Hnd].
  unfold PollutionModel.add_agent, randrange, randbelow.
  rewrite Hw. simpl. rewrite Hh. simpl. rewrite Hmk.
  destruct (decide _) as [Hused|_].
  { destruct (Hfresh i); [by left | done]. }
  simpl. apply IH; [done|]. intros j Hj. simpl.
  rewrite fmap_app, elem_of_app. intros [Hold|Hnew].
  - destruct (Hfresh j); [by right | done].
  - simpl in Hnew. rewrite Hmk in Hnew.
    apply list_elem_of_singleton in Hnew as [= Hgj].
    apply Hi. rewrite <- Hgj. by apply list_elem_of_fmap_2.
Qed.

Lemma create_cells_keys_are_positions w h k :
  k ∈ unique_id <$> PollutionModel.create_cells w h → ∃ pos, k = PosKey pos.
Proof.
  intros Hk. apply list_elem_of_fmap in Hk as (a & -> & Ha).
  unfold PollutionModel.create_cells in Ha.
  apply list_elem_of_bind in Ha as (x & Ha & _).
  apply list_elem_of_bind in Ha as (y & Ha & _).
  apply list_elem_of_singleton in Ha as ->. by eexists.
Qed.

Lemma NoDup_shifted_range (g : Z → Z) n :
  (∀ i j, g i = g j → i = j) → NoDup (g <$> range n).
Proof. intros Hg. apply NoDup_fmap_2; [exact Hg | apply NoDup_range]. Qed.

Lemma init_succeeds w h c f t seed :
  (0 < w)%Z → (0 < h)%Z → (0 ≤ f)%Z →
  ∃ m, PollutionModel.__init__ w h c f t seed = Ok m.
Proof.
  intros Hw Hh Hf. unfold PollutionModel.__init__.
  destruct (add_agents_succeeds w h (λ i, CarAgent i) (λ i, i) (range c)
              (PollutionModel.create_cells w h, seed) Hw Hh) as [st1 H1].
  { done. }
  { apply NoDup_shifted_range. auto. }
  { intros i _ Hk. by apply create_cells_keys_are_positions in Hk as [pos ?]. }
  rewrite H1. simpl.
  apply add_agents_Ok in H1 as (cars & E1 & F1). simpl in E1.
  apply (Forall2_unique_id _ (λ i, i)) in F1; [|by intros ?? [? [-> _]]].
  destruct (add_agents_succeeds w h (λ i, FactoryAgent (c + i)) (λ i, c + i)%Z
              (range f) st1 Hw Hh) as [st2 H2].
  { done. }
  { apply NoDup_shifted_range. intros; lia. }
  { intros j Hj. rewrite E1, fmap_app, elem_of_app, F1, elem_of_id_keys.
    apply elem_of_range in Hj. intros [Hk|(i & [= E] & Hi)].
    - by apply create_cells_keys_are_positions in Hk as [pos ?].
    - apply elem_of_range in Hi. lia. }
  rewrite H2. simpl.
  apply add_agents_Ok in H2 as (facs & E2 & F2).
  apply (Forall2_unique_id _ (λ i, c + i)%Z) in F2; [|by intros ?? [? [-> _]]].
  destruct (add_agents_succeeds w h (λ i pos, TreeAgent (c + f + i) pos true)
              (λ i, c + f + i)%Z (range t) st2 Hw Hh) as [st3 H3].
  { done. }
  { apply NoDup_shifted_range. intros; lia. }
  { intros k Hk. rewrite E2, E1, !fmap_app, !elem_of_app, F1, F2, !elem_of_id_keys.
    apply elem_of_range in Hk. intros [[Hc|(i & [= E] & Hi)]|(j & [= E] & Hj)].
    - by apply create_cells_keys_are_positions in Hc as [pos ?].
    - apply elem_of_range in Hi. lia.
    - apply elem_of_range in Hj. lia. }
  rewrite H3. simpl. eauto.
Qed.

(** X1. On a grid with positive dimensions and non-negative counts the
    construction succeeds; the population has one cell per grid position
    and as many cars, factories and trees as asked for, and placing them
    took two draws of the generator per agent. *)
Theorem construction_succeeds w h c f t seed :
  (0 < w)%Z → (0 < h)%Z → (0 ≤ c)%Z → (0 ≤ f)%Z → (0 ≤ t)%Z →
  ∃ m, PollutionModel.__init__ w h c f t seed = Ok m ∧
    Z.of_nat (length (keys_of_kind KCell (schedule m))) = (w * h)%Z ∧
    Z.of_nat (length (keys_of_kind KCar (schedule m))) = c ∧
    Z.of_nat (length (keys_of_kind KFactory (schedule m))) = f ∧
    Z.of_nat (length (keys_of_kind KTree (schedule m))) = t ∧
    Z.of_nat (length (schedule m)) = (w * h + c + f + t)%Z ∧
    oracle (random m) = oracle seed ∧
    Z.of_nat (drawn (random m)) = (Z.of_nat (drawn seed) + 2 * (c + f + t))%Z.
Proof.
  intros Hw Hh Hc Hf Ht.
  destruct (init_succeeds w h c f t seed Hw Hh Hf) as [m Hm].
  exists m. split; [done|].
  pose proof (init_kinds _ _ _ _ _ _ _ Hm) as Hk.
  destruct (kind_major_keys _ _ _ _ _ Hk) as (-> & -> & -> & -> & ->).
  destruct (init_random _ _ _ _ _ _ _ Hm) as [Ho Hd].
  rewrite !length_seq, create_cells_length, Hd.
  repeat split; try done; nia.
Qed.

Lemma construction_succeeds_witness :
  ∃ m, PollutionModel.__init__ 2 1 1 0 0 seed1 = Ok m ∧
       Z.of_nat (length (schedule m)) = 3%Z.
Proof.
  destruct (construction_succeeds 2 1 1 0 0 seed1)
    as (m & Hm & _ & _ & _ & _ & Hlen & _); try lia.
  exists m. split; [exact Hm | exact Hlen].
Defined.

(** ** One pass of the scheduler, agent by agent *)

(** An invariant indexed by the kinds of the agents already stepped is
    carried through the whole pass of [step] calls. *)
Lemma pass_invariant (I : list Kind → PollutionModel → Prop) :
  (∀ kdone k m m',
     I kdone m → (kind_of <$> schedule m) !! length kdone = Some k →
     agent_step (length kdone) m = Ok m' → I (kdone ++ [k]) m') →
  ∀ m m', I [] m →
    run_steps (seq 0 (length (schedule m))) m = Ok m' →
    I (kind_of <$> schedule m) m'.
Proof.
  intros Hstep.
  assert (Hgen : ∀ krest kdone m m',
            kind_of <$> schedule m = kdone ++ krest → I kdone m →
            run_steps (seq (length kdone) (length krest)) m = Ok m' →
            I (kdone ++ krest) m').
  { induction krest as [|k krest IH]; intros kdone m m' Hk HI Hrun.
    - injection Hrun as <-. by rewrite app_nil_r.
    - simpl in Hrun. apply bind_Ok in Hrun as (m1 & H1 & Hrun).
      assert (Hlook : (kind_of <$> schedule m) !! length kdone = Some k).
      { rewrite Hk, lookup_app_r, Nat.sub_diag by lia. done. }
      pose proof (Hstep _ _ _ _ HI Hlook H1) as HI1.
      destruct (agent_step_stable _ _ _ H1) as (_ & _ & _ & Hf).
      rewrite (cons_middle k kdone krest), app_assoc.
      apply (IH (kdone ++ [k]) m1).
      + by rewrite (kind_of_fixed _ _ Hf), Hk, <- app_assoc.
      + done.
      + rewrite length_app. simpl. by rewrite Nat.add_1_r. }
  intros m m' HI Hrun.
  change (I ([] ++ (kind_of <$> schedule m)) m').
  apply (Hgen (kind_of <$> schedule m) [] m m'); [done|done|].
  by rewrite length_fmap.
Qed.

(** ** Draws of the random generator *)

Lemma agent_step_random i m m' :
  agent_step i m = Ok m' →
  oracle (random m') = oracle (random m) ∧
  drawn (random m')
  = drawn (random m) + length (filter (λ k, k = KCar) (option_list ((kind_of <$> schedule m) !! i))).
Proof.
  unfold agent_step. rewrite list_lookup_fmap.
  destruct (schedule m !! i) as [[pos v|id pos|id pos|id pos al]|]; simpl.
  - intros [= <-]. simpl. split; [done|lia].
  - unfold CarAgent.step. intros H. apply bind_Ok in H as ([np r] & Hch & [= <-]).
    apply choice_Ok in Hch as [_ ->]. simpl. split; [done|lia].
  - intros [= <-]. simpl. split; [done|lia].
  - intros [= <-]. unfold TreeAgent.step. destruct al; simpl; split; done || lia.
  - intros [= <-]. split; [done|lia].
Qed.

Lemma pass_random m m' :
  run_steps (seq 0 (length (schedule m))) m = Ok m' →
  oracle (random m') = oracle (random m) ∧
  drawn (random m')
  = drawn (random m) + length (filter (λ k, k = KCar) (kind_of <$> schedule m)).
Proof.
  apply (pass_invariant (λ kdone m1,
           oracle (random m1) = oracle (random m) ∧
           drawn (random m1)
           = drawn (random m) + length (filter (λ k, k = KCar) kdone))).
  - intros kdone k m1 m2 [Ho Hd] Hk Hstep.
    apply agent_step_random in Hstep as [Ho' Hd'].
    rewrite Hk in Hd'. simpl in Hd'.
    rewrite filter_app, length_app, Ho', Hd', Ho, Hd. split; [done|lia].
  - split; [done|]. simpl. lia.
Qed.

Lemma model_step_random m m' :
  PollutionModel.step m = Ok m' →
  oracle (random m') = oracle (random m) ∧
  drawn (random m')
  = drawn (random m) + length (filter (λ k, k = KCar) (kind_of <$> schedule m)).
Proof.
  unfold PollutionModel.step, SimultaneousActivation.step.
  intros H. apply bind_Ok in H as (m1 & H1 & [= <-]). simpl.
  rewrite run_advances_all. simpl.
  exact (pass_random (PollutionModel.collect m) m1 H1).
Qed.

Lemma run_random n m m' :
  run n m = Ok m' →
  oracle (random m') = oracle (random m) ∧
  drawn (random m')
  = drawn (random m) + n * length (filter (λ k, k = KCar) (kind_of <$> schedule m)).
Proof.
  revert m. induction n as [|n IH]; intros m; simpl.
  - intros [= <-]. split; [done|lia].
  - intros H. apply bind_Ok in H as (m1 & H1 & H2).
    destruct (model_step_fixed _ _ H1) as (_ & _ & Hf).
    apply model_step_random in H1 as [Ho1 Hd1].
    apply IH in H2 as [Ho2 Hd2].
    rewrite (kind_of_fixed _ _ Hf) in Hd2.
    split; [congruence|]. rewrite Hd2, Hd1. lia.
Qed.

Lemma init_car_count w h c f t seed m :
  PollutionModel.__init__ w h c f t seed = Ok m →
  length (filter (λ k, k = KCar) (kind_of <$> schedule m)) = Z.to_nat c.
Proof.
  intros H. rewrite (init_kinds _ _ _ _ _ _ _ H).
  assert (Hsame : ∀ n, filter (λ k, k = KCar) (replicate n KCar) = replicate n KCar).
  { induction n as [|n IH]; [done|]. simpl. by rewrite filter_cons, IH. }
  assert (Hother : ∀ n k, k ≠ KCar → filter (λ k, k = KCar) (replicate n k) = []).
  { intros n k Hk. induction n as [|n IH]; [done|]. simpl.
    rewrite filter_cons, IH. by destruct (decide _). }
  rewrite !filter_app, Hsame, !Hother by done.
  simpl. by rewrite app_nil_r, length_replicate.
Qed.

(** X6. The random generator is used twice per placed agent at
    construction and afterwards exactly once per car and tick: after [n]
    ticks of a model with [c] cars, [f] factories and [t] trees the
    number of draws is [2 (c + f + t) + n c], and the stream of the
    generator is never replaced. *)
Theorem draws_of_the_generator w h c f t seed m0 n m :
  PollutionModel.__init__ w h c f t seed = Ok m0 →
  run n m0 = Ok m →
  oracle (random m) = oracle seed ∧
  drawn (random m)
  = drawn seed + 2 * (Z.to_nat c + Z.to_nat f + Z.to_nat t) + n * Z.to_nat c.
Proof.
  intros Hinit Hrun.
  destruct (init_random _ _ _ _ _ _ _ Hinit) as [Ho0 Hd0].
  destruct (run_random _ _ _ Hrun) as [Ho Hd].
  rewrite (init_car_count _ _ _ _ _ _ _ Hinit) in Hd.
  split; [congruence|lia].
Qed.

Lemma draws_of_the_generator_witness :
  PollutionModel.__init__ 2 1 1 0 0 seed1 = Ok lane ∧
  ∃ m, run 3 lane = Ok m ∧ drawn (random m) = 5.
Proof.
  split; [reflexivity|].
  destruct (run_succeeds 3 lane) as (m & Hrun & _).
  - apply (init_in_bounds 2 1 1 0 0 seed1). reflexivity.
  - left. left. simpl. lia.
  - exists m. split; [exact Hrun|].
    destruct (draws_of_the_generator 2 1 1 0 0 seed1 lane 3 m) as [_ Hd];
      [reflexivity | exact Hrun | exact Hd].
Defined.

(** ** Bounds through one step of a cell *)

Lemma within_field lo hi s :
  within lo hi s ↔ Forall (λ v, lo <= v ∧ v <= hi)%Q (pollution_field s).
Proof.
  unfold within. rewrite !Forall_forall. split.
  - intros H v Hv. apply elem_of_pollution_field in Hv as [pos Hin].
    exact (H _ Hin).
  - intros H [pos v| | |] Hin; simpl; try done.
    apply H, elem_of_pollution_field. eauto.
Qed.

Lemma within_mono lo hi lo' hi' s :
  (lo' <= lo)%Q → (hi <= hi')%Q → within lo hi s → within lo' hi' s.
Proof.
  intros Hlo Hhi Hs. eapply Forall_impl; [exact Hs|].
  intros [pos v| | |]; simpl; try done. intros [? ?]. split; lra.
Qed.

Lemma cell_pollution_within lo hi s pos :
  within lo hi s → Forall (λ v, lo <= v ∧ v <= hi)%Q (cell_pollution s pos).
Proof.
  intros Hs. apply Forall_forall. intros v Hv.
  apply elem_of_cell_pollution in Hv as [j Hj].
  exact (proj1 (Forall_lookup _ _) Hs j (PollutionCell pos v) Hj).
Qed.

Lemma foldl_Qplus_within lo hi l acc :
  Forall (λ v, lo <= v ∧ v <= hi)%Q l →
  (acc + inject_Z (Z.of_nat (length l)) * lo <= foldl Qplus acc l ∧
   foldl Qplus acc l <= acc + inject_Z (Z.of_nat (length l)) * hi)%Q.
Proof.
  intros Hl. revert acc. induction Hl as [|v l [Hlo Hhi] _ IH]; intros acc.
  - cbn [foldl length]. change (inject_Z (Z.of_nat 0)) with 0%Q.
    split; lra.
  - cbn [foldl length]. destruct (IH (acc + v)%Q) as [IH1 IH2].
    rewrite Nat2Z.inj_succ, <- Z.add_1_r, inject_Z_plus.
    change (inject_Z 1) with 1%Q. split; lra.
Qed.

Lemma neighbour_values_length w h s pos :
  one_cell_per_position w h s →
  length (MultiGrid.get_neighborhood w h pos ≫= cell_pollution s)
  = length (MultiGrid.get_neighborhood w h pos).
Proof.
  intros Hs.
  assert (Hin : Forall (in_bounds w h) (MultiGrid.get_neighborhood w h pos)).
  { apply Forall_forall. intros p Hp. by apply elem_of_get_neighborhood in Hp as [? _]. }
  induction Hin as [|p ps Hp _ IH]; [done|].
  rewrite bind_cons, length_app, IH.
  destruct (proj1 (Hs p) Hp) as [v ->]. done.
Qed.

Lemma cell_step_within lo hi (i : nat) pos v m :
  one_cell_per_position (width m) (height m) (schedule m) →
  within lo hi (schedule m) →
  schedule m !! i = Some (PollutionCell pos v) →
  within lo hi (schedule (PollutionCell.step i pos v m)).
Proof.
  intros Hone Hs Hi. simpl. apply Forall_insert; [done|].
  set (neighbors := MultiGrid.get_neighborhood (width m) (height m) pos).
  set (values := neighbors ≫= cell_pollution (schedule m)).
  assert (Hvals : Forall (λ v, lo <= v ∧ v <= hi)%Q values).
  { apply Forall_bind, Forall_true. intros p. simpl.
    by apply cell_pollution_within. }
  destruct (foldl_Qplus_within lo hi values 0 Hvals) as [Hsum1 Hsum2].
  fold (sum values) in Hsum1, Hsum2.
  assert (Hlen : length values = length neighbors)
    by (by apply neighbour_values_length).
  rewrite Hlen in Hsum1, Hsum2.
  destruct (proj1 (Forall_lookup _ _) Hs i _ Hi) as [Hv1 Hv2].
  assert (Hpos : (0 < inject_Z (Z.of_nat (length neighbors) + 1))%Q)
    by (unfold Qlt; simpl; lia).
  split.
  - apply Qle_shift_div_l; [done|]. rewrite inject_Z_plus.
    change (inject_Z 1) with 1%Q. lra.
  - apply Qle_shift_div_r; [done|]. rewrite inject_Z_plus.
    change (inject_Z 1) with 1%Q. lra.
Qed.

(** ** Pollution is bounded *)

Lemma emitted_app k1 k2 : (emitted (k1 ++ k2) == emitted k1 + emitted k2)%Q.
Proof.
  induction k1 as [|k k1 IH]; simpl; [lra|]. destruct k; lra.
Qed.

Lemma emitted_nonneg ks : (0 <= emitted ks)%Q.
Proof. induction ks as [|k ks IH]; simpl; [lra|]. destruct k; lra. Qed.

Lemma emitted_replicate k n :
  (emitted (replicate n k) == emitted [k] * inject_Z (Z.of_nat n))%Q.
Proof.
  induction n as [|n IH].
  - simpl. change (inject_Z (Z.of_nat 0)) with 0%Q. lra.
  - rewrite Nat2Z.inj_succ, <- Z.add_1_r, inject_Z_plus.
    change (inject_Z 1) with 1%Q.
    change (replicate (S n) k) with ([k] ++ replicate n k).
    rewrite emitted_app, IH. lra.
Qed.

Lemma init_emitted w h c f t seed m :
  (0 ≤ c)%Z → (0 ≤ f)%Z →
  PollutionModel.__init__ w h c f t seed = Ok m →
  (emitted (kind_of <$> schedule m) == 10 * inject_Z c + 20 * inject_Z f)%Q.
Proof.
  intros Hc Hf H. rewrite (init_kinds _ _ _ _ _ _ _ H).
  rewrite !emitted_app, !emitted_replicate, !Z2Nat.id by done. simpl. lra.
Qed.

Lemma update_cells_at_within pos g lo hi lo' hi' s :
  (∀ v, lo <= v ∧ v <= hi → lo' <= g v ∧ g v <= hi')%Q →
  (∀ v, lo <= v ∧ v <= hi → lo' <= v ∧ v <= hi')%Q →
  within lo hi s → within lo' hi' (update_cells_at pos g s).
Proof.
  intros Hg Hid Hs. unfold update_cells_at. apply Forall_fmap.
  eapply Forall_impl; [exact Hs|]. intros [p v| | |] Ha; simpl; try done.
  destruct (decide (p = pos)); simpl; auto.
Qed.

Lemma agent_step_within B (i : nat) k m m' :
  one_cell_per_position (width m) (height m) (schedule m) →
  within 0 B (schedule m) →
  (kind_of <$> schedule m) !! i = Some k →
  agent_step i m = Ok m' →
  within 0 (B + emitted [k]) (schedule m').
Proof.
  intros Hone Hs Hk. rewrite list_lookup_fmap in Hk. unfold agent_step.
  destruct (schedule m !! i) as [[pos v|id pos|id pos|id pos al]|] eqn:Hi;
    simplify_eq/=.
  - intros [= <-]. apply (within_mono 0 B); [lra | lra |].
    by apply cell_step_within.
  - unfold CarAgent.step. intros H. apply bind_Ok in H as ([np r] & _ & [= <-]).
    simpl. apply (update_cells_at_within _ _ 0 B).
    + intros v [? ?]. split; lra.
    + intros v [? ?]. split; lra.
    + by apply Forall_insert.
  - intros [= <-]. simpl. apply (update_cells_at_within _ _ 0 B); [| |done].
    + intros v [? ?]. split; lra.
    + intros v [? ?]. split; lra.
  - intros [= <-]. unfold TreeAgent.step. destruct al.
    + simpl. apply Forall_insert; [|done].
      apply (update_cells_at_within _ _ 0 B); [| |done].
      * intros v [? ?]. split; lra.
      * intros v [? ?]. split; lra.
    + apply (within_mono 0 B); [lra | lra | done].
Qed.

Lemma agent_step_one_cell i m m' :
  one_cell_per_position (width m) (height m) (schedule m) →
  agent_step i m = Ok m' →
  one_cell_per_position (width m') (height m') (schedule m').
Proof.
  intros Hone Hstep. destruct (agent_step_stable _ _ _ Hstep) as (-> & -> & _ & Hf).
  by eapply one_cell_per_position_fixed.
Qed.

Lemma pass_within B m m' :
  one_cell_per_position (width m) (height m) (schedule m) →
  within 0 B (schedule m) →
  run_steps (seq 0 (length (schedule m))) m = Ok m' →
  within 0 (B + emitted (kind_of <$> schedule m)) (schedule m').
Proof.
  intros Hone Hs Hrun.
  apply (pass_invariant (λ kdone m1,
           one_cell_per_position (width m1) (height m1) (schedule m1) ∧
           within 0 (B + emitted kdone) (schedule m1)) ) in Hrun.
  - by destruct Hrun.
  - intros kdone k m1 m2 [Hone1 Hs1] Hk Hstep.
    split; [by eapply agent_step_one_cell|].
    eapply within_mono; [| |by eapply agent_step_within]; [lra|].
    rewrite emitted_app. lra.
  - split; [done|]. eapply within_mono; [| |exact Hs]; simpl; lra.
Qed.

Lemma decay_within B s : within 0 B s → within 0 (B * (9 # 10)) (decay <$> s).
Proof.
  intros Hs. apply Forall_fmap. eapply Forall_impl; [exact Hs|].
  intros [p v| | |]; simpl; try done. intros [? ?]. split; lra.
Qed.

Lemma model_step_within B m m' :
  one_cell_per_position (width m) (height m) (schedule m) →
  within 0 B (schedule m) →
  PollutionModel.step m = Ok m' →
  within 0 ((B + emitted (kind_of <$> schedule m)) * (9 # 10)) (schedule m').
Proof.
  intros Hone Hs. unfold PollutionModel.step, SimultaneousActivation.step.
  intros H. apply bind_Ok in H as (m1 & H1 & [= <-]). simpl.
  rewrite run_advances_all. simpl. apply decay_within.
  exact (pass_within B (PollutionModel.collect m) m1 Hone Hs H1).
Qed.

Lemma run_within n m m' :
  one_cell_per_position (width m) (height m) (schedule m) →
  within 0 (9 * emitted (kind_of <$> schedule m)) (schedule m) →
  run n m = Ok m' →
  within 0 (9 * emitted (kind_of <$> schedule m)) (schedule m').
Proof.
  revert m. induction n as [|n IH]; intros m Hone Hs; simpl.
  - by intros [= <-].
  - intros H. apply bind_Ok in H as (m1 & H1 & H2).
    destruct (model_step_fixed _ _ H1) as (Hw & Hh & Hf).
    rewrite <- (kind_of_fixed _ _ Hf). apply IH; [| |done].
    + rewrite Hw, Hh. by eapply one_cell_per_position_fixed.
    + rewrite (kind_of_fixed _ _ Hf).
      eapply within_mono; [| |by eapply model_step_within]; lra.
Qed.

Lemma init_within w h c f t seed m :
  PollutionModel.__init__ w h c f t seed = Ok m →
  one_cell_per_position (width m) (height m) (schedule m) ∧
  within 0 0 (schedule m).
Proof.
  intros H. split.
  - destruct (init_Ok _ _ _ _ _ _ _ H)
      as (cars & facs & trees & _ & _ & _ & _ & -> & -> & _).
    by eapply init_one_cell_per_position.
  - apply within_field. rewrite (init_field _ _ _ _ _ _ _ H).
    apply Forall_replicate. split; lra.
Qed.

(** X8. Pollution is bounded.  With [c] cars and [f] factories a tick
    maps a field bounded by [B] to a field bounded by
    [0.9 (B + 10 c + 20 f)], so in every state reached from construction
    every cell's pollution lies between 0 and [90 c + 180 f]. *)
Theorem pollution_is_bounded w h c f t seed m0 n m :
  (0 ≤ c)%Z → (0 ≤ f)%Z →
  PollutionModel.__init__ w h c f t seed = Ok m0 →
  run n m0 = Ok m →
  Forall (λ v, 0 <= v ∧ v <= 90 * inject_Z c + 180 * inject_Z f)%Q
         (pollution_field (schedule m)) ∧
  ∀ B m',
    Forall (λ v, 0 <= v ∧ v <= B)%Q (pollution_field (schedule m)) →
    PollutionModel.step m = Ok m' →
    Forall (λ v, 0 <= v ∧ v <= (B + 10 * inject_Z c + 20 * inject_Z f) * (9 # 10))%Q
           (pollution_field (schedule m')).
Proof.
  intros Hc Hf Hinit Hrun.
  pose proof (init_emitted _ _ _ _ _ _ _ Hc Hf Hinit) as HE.
  destruct (init_within _ _ _ _ _ _ _ Hinit) as [Hone0 H0].
  destruct (run_fixed _ _ _ Hrun) as (Hw & Hh & Hfix).
  assert (Hone : one_cell_per_position (width m) (height m) (schedule m))
    by (rewrite Hw, Hh; by eapply one_cell_per_position_fixed).
  split.
  - apply within_field.
    eapply within_mono; [| |eapply (run_within n m0 m Hone0); [|exact Hrun]].
    + lra.
    + rewrite HE. lra.
    + eapply within_mono; [| |exact H0]; [lra|].
      pose proof (emitted_nonneg (kind_of <$> schedule m0)). lra.
  - intros B m' HB Hstep. apply within_field.
    eapply within_mono;
      [| |eapply (model_step_within B); [exact Hone| |exact Hstep]].
    + lra.
    + rewrite (kind_of_fixed _ _ Hfix), HE. lra.
    + by apply within_field.
Qed.

Lemma pollution_is_bounded_witness :
  (0 ≤ 0)%Z ∧ (0 ≤ 1)%Z ∧
  PollutionModel.__init__ 1 3 0 1 0 seed1 = Ok strip ∧
  run 0 strip = Ok strip ∧
  Forall (λ v, 0 <= v ∧ v <= 90 * inject_Z 0 + 180 * inject_Z 1)%Q
         (pollution_field (schedule strip)).
Proof.
  split; [lia|]. split; [lia|]. split; [reflexivity|]. split; [reflexivity|].
  destruct (pollution_is_bounded 1 3 0 1 0 seed1 strip 0 strip) as [H _];
    [lia | lia | reflexivity | reflexivity | exact H].
Defined.

(** ** Dead trees only accumulate *)

Lemma filter_length_le (P : Agent → Prop) `{∀ a, Decision (P a)} (s s' : list Agent) :
  length s = length s' →
  (∀ (i : nat) a, s !! i = Some a → P a → ∃ a', s' !! i = Some a' ∧ P a') →
  length (filter P s) ≤ length (filter P s').
Proof.
  revert s'. induction s as [|a s IH]; intros [|a' s'] Hlen Hp; simplify_eq/=.
  - done.
  - assert (IH' : length (filter P s) ≤ length (filter P s')).
    { apply IH; [done|]. intros i b Hi Hb. exact (Hp (S i) b Hi Hb). }
    rewrite !filter_cons. destruct (decide (P a)) as [Ha|Ha].
    + destruct (Hp 0 a eq_refl Ha) as (b & [= <-] & Hb).
      destruct (decide (P a')); [simpl; lia | done].
    + destruct (decide (P a')); simpl; lia.
Qed.

(** X9. Over any run of ticks, from any state, the number of dead trees
    never decreases and the number of trees alive never increases, and
    their sum stays the same. *)
Theorem dead_trees_only_accumulate n m m' :
  run n m = Ok m' →
  PollutionModel.tree_death_rate m ≤ PollutionModel.tree_death_rate m' ∧
  PollutionModel.tree_growth_rate m' ≤ PollutionModel.tree_growth_rate m ∧
  PollutionModel.tree_growth_rate m' + PollutionModel.tree_death_rate m'
  = PollutionModel.tree_growth_rate m + PollutionModel.tree_death_rate m.
Proof.
  intros Hrun. destruct (run_fixed _ _ _ Hrun) as (_ & _ & Hf).
  assert (Hdead : PollutionModel.tree_death_rate m ≤ PollutionModel.tree_death_rate m').
  { unfold PollutionModel.tree_death_rate. apply filter_length_le.
    - symmetry. by apply fixed_part_length.
    - intros i a Hi Ha. exists a. split; [|done].
      eapply run_inert; [|exact Hi|exact Hrun].
      destruct a as [| | |id pos []]; done. }
  assert (Hsum : PollutionModel.tree_growth_rate m' + PollutionModel.tree_death_rate m'
                 = PollutionModel.tree_growth_rate m + PollutionModel.tree_death_rate m).
  { unfold PollutionModel.tree_growth_rate, PollutionModel.tree_death_rate.
    by rewrite !tree_counts_total, (keys_of_kind_fixed _ _ _ Hf). }
  split; [done|]. split; [lia|done].
Qed.

Lemma dead_trees_only_accumulate_witness :
  ∃ m', run 2 grove = Ok m' ∧
        PollutionModel.tree_death_rate grove ≤ PollutionModel.tree_death_rate m'.
Proof.
  eexists. split; [vm_compute; reflexivity|].
  eapply (dead_trees_only_accumulate 2 grove). vm_compute. reflexivity.
Defined.

(** ** Without emitters nothing happens *)

Lemma agent_step_quiet i m m' :
  one_cell_per_position (width m) (height m) (schedule m) →
  within 0 0 (schedule m) →
  Forall (λ k, k ≠ KCar ∧ k ≠ KFactory) (kind_of <$> schedule m) →
  Forall (λ a, ¬ PollutionModel.is_tree false a) (schedule m) →
  agent_step i m = Ok m' →
  within 0 0 (schedule m') ∧
  Forall (λ a, ¬ PollutionModel.is_tree false a) (schedule m').
Proof.
  intros Hone Hs Hkinds Halive Hstep. split.
  - destruct ((kind_of <$> schedule m) !! i) as [k|] eqn:Hk.
    + pose proof (agent_step_within 0 i k m m' Hone Hs Hk Hstep) as Hw.
      destruct (proj1 (Forall_lookup _ _) Hkinds i k Hk) as [Hcar Hfac].
      eapply within_mono; [| |exact Hw]; [lra|].
      destruct k; simpl; try done; lra.
    + rewrite list_lookup_fmap in Hk. unfold agent_step in Hstep.
      destruct (schedule m !! i); [done|]. by injection Hstep as <-.
  - revert Hstep. unfold agent_step.
    destruct (schedule m !! i) as [[pos v|id pos|id pos|id pos al]|] eqn:Hi.
    + intros [= <-]. simpl. apply Forall_insert; [done|]. by intros [].
    + exfalso. destruct (proj1 (Forall_lookup _ _) Hkinds i KCar); [|done].
      by rewrite list_lookup_fmap, Hi.
    + exfalso. destruct (proj1 (Forall_lookup _ _) Hkinds i KFactory) as [_ ?]; [|done].
      by rewrite list_lookup_fmap, Hi.
    + intros [= <-]. unfold TreeAgent.step. destruct al; [|done]. simpl.
      set (reduced := update_cells_at pos (λ v, v * (7 # 10))%Q (schedule m)).
      assert (Hred : within 0 0 reduced).
      { apply (update_cells_at_within _ _ 0 0); [| |done]; intros v [? ?]; split; lra. }
      assert (Hsurvives :
        foldl (λ still v, if Qgtb v 30 then false else still) true
              (cell_pollution reduced pos) = true).
      { apply not_false_iff_true. rewrite survives_false.
        intros [?|(v & Hv & Hlt)]; [done|].
        pose proof (proj1 (Forall_forall _ _) (cell_pollution_within _ _ _ pos Hred) v Hv)
          as [_ Hle].
        lra. }
      rewrite Hsurvives. apply Forall_insert; [|by intros []].
      unfold reduced, update_cells_at. apply Forall_fmap.
      eapply Forall_impl; [exact Halive|]. intros [p v| | |] Ha; simpl; try done.
      by destruct (decide (p = pos)).
    + by intros [= <-].
Qed.

Lemma run_steps_quiet keys m m' :
  one_cell_per_position (width m) (height m) (schedule m) →
  within 0 0 (schedule m) →
  Forall (λ k, k ≠ KCar ∧ k ≠ KFactory) (kind_of <$> schedule m) →
  Forall (λ a, ¬ PollutionModel.is_tree false a) (schedule m) →
  run_steps keys m = Ok m' →
  within 0 0 (schedule m') ∧
  Forall (λ a, ¬ PollutionModel.is_tree false a) (schedule m').
Proof.
  revert m. induction keys as [|k keys IH]; intros m Hone Hs Hkinds Halive; simpl.
  - by intros [= <-].
  - intros H. apply bind_Ok in H as (m1 & H1 & H2).
    destruct (agent_step_quiet _ _ _ Hone Hs Hkinds Halive H1) as [Hs1 Halive1].
    apply (IH m1); try done.
    + by eapply agent_step_one_cell.
    + destruct (agent_step_stable _ _ _ H1) as (_ & _ & _ & Hf).
      by rewrite (kind_of_fixed _ _ Hf).
Qed.

Lemma model_step_quiet m m' :
  one_cell_per_position (width m) (height m) (schedule m) →
  within 0 0 (schedule m) →
  Forall (λ k, k ≠ KCar ∧ k ≠ KFactory) (kind_of <$> schedule m) →
  Forall (λ a, ¬ PollutionModel.is_tree false a) (schedule m) →
  PollutionModel.step m = Ok m' →
  within 0 0 (schedule m') ∧
  Forall (λ a, ¬ PollutionModel.is_tree false a) (schedule m').
Proof.
  intros Hone Hs Hkinds Halive.
  unfold PollutionModel.step, SimultaneousActivation.step.
  intros H. apply bind_Ok in H as (m1 & H1 & [= <-]). simpl.
  rewrite run_advances_all. simpl.
  destruct (run_steps_quiet _ (PollutionModel.collect m) m1 Hone Hs Hkinds Halive H1)
    as [Hs1 Halive1].
  split.
  - eapply within_mono; [| |by apply decay_within]; lra.
  - apply Forall_fmap. eapply Forall_impl; [exact Halive1|].
    by intros [| | |].
Qed.

Lemma run_quiet n m m' :
  one_cell_per_position (width m) (height m) (schedule m) →
  within 0 0 (schedule m) →
  Forall (λ k, k ≠ KCar ∧ k ≠ KFactory) (kind_of <$> schedule m) →
  Forall (λ a, ¬ PollutionModel.is_tree false a) (schedule m) →
  run n m = Ok m' →
  within 0 0 (schedule m') ∧
  Forall (λ a, ¬ PollutionModel.is_tree false a) (schedule m').
Proof.
  revert m. induction n as [|n IH]; intros m Hone Hs Hkinds Halive; simpl.
  - by intros [= <-].
  - intros H. apply bind_Ok in H as (m1 & H1 & H2).
    destruct (model_step_quiet _ _ Hone Hs Hkinds Halive H1) as [Hs1 Halive1].
    destruct (model_step_fixed _ _ H1) as (Hw & Hh & Hf).
    apply (IH m1); try done.
    + rewrite Hw, Hh. by eapply one_cell_per_position_fixed.
    + by rewrite (kind_of_fixed _ _ Hf).
Qed.

(** X10. A model built without cars and without factories runs any
    number of ticks, and nothing ever happens in it: every cell's
    pollution stays 0, no tree dies, and the trees alive stay as many as
    were planted. *)
Theorem quiet_without_emitters w h c f t seed m0 n :
  (c ≤ 0)%Z → (f ≤ 0)%Z →
  PollutionModel.__init__ w h c f t seed = Ok m0 →
  ∃ m, run n m0 = Ok m ∧
    Forall (λ v, v == 0)%Q (pollution_field (schedule m)) ∧
    PollutionModel.tree_death_rate m = 0 ∧
    PollutionModel.tree_growth_rate m = Z.to_nat t.
Proof.
  intros Hc Hf Hinit.
  pose proof (init_kinds _ _ _ _ _ _ _ Hinit) as Hk.
  replace (Z.to_nat c) with 0 in Hk by lia.
  replace (Z.to_nat f) with 0 in Hk by lia. simpl in Hk.
  destruct (run_succeeds n m0) as (m & Hrun & _).
  { by eapply init_in_bounds. }
  { right. rewrite Hk. apply Forall_app_2; by apply Forall_replicate. }
  exists m. split; [done|].
  destruct (init_within _ _ _ _ _ _ _ Hinit) as [Hone H0].
  destruct (run_quiet n m0 m) as [Hs Halive]; try done.
  { rewrite Hk. apply Forall_app_2; by apply Forall_replicate. }
  { assert (Hnone : filter (λ a, PollutionModel.is_tree false a) (schedule m0) = [])
      by (by eapply init_no_dead_tree).
    apply Forall_forall. intros a Ha Hd.
    assert (Hin : a ∈ filter (λ a, PollutionModel.is_tree false a) (schedule m0))
      by (by apply list_elem_of_filter).
    rewrite Hnone in Hin. by apply elem_of_nil in Hin. }
  assert (Hdeath : PollutionModel.tree_death_rate m = 0).
  { unfold PollutionModel.tree_death_rate.
    destruct (filter _ (schedule m)) as [|a l] eqn:E; [done|].
    assert (Hin : a ∈ filter (λ a, PollutionModel.is_tree false a) (schedule m))
      by (rewrite E; by left).
    apply list_elem_of_filter in Hin as [Hd Hin].
    destruct (proj1 (Forall_forall _ _) Halive a Hin Hd). }
  split; [|split; [done|]].
  - apply within_field in Hs. eapply Forall_impl; [exact Hs|].
    intros v [? ?]. lra.
  - pose proof (tree_counts_total (schedule m)) as Htot.
    destruct (run_fixed _ _ _ Hrun) as (_ & _ & Hfix).
    rewrite (keys_of_kind_fixed _ _ _ Hfix) in Htot.
    rewrite (init_tree_keys _ _ _ _ _ _ _ Hinit) in Htot.
    unfold PollutionModel.tree_growth_rate, PollutionModel.tree_death_rate in *.
    lia.
Qed.

Lemma quiet_without_emitters_witness :
  PollutionModel.__init__ 1 1 0 0 1 seed1 = Ok grove ∧
  ∃ m, run 4 grove = Ok m ∧ PollutionModel.tree_growth_rate m = 1.
Proof.
  split; [reflexivity|].
  destruct (quiet_without_emitters 1 1 0 0 1 seed1 grove 4)
    as (m & Hrun & _ & _ & Hg); [lia | lia | reflexivity |].
  exists m. split; [exact Hrun | exact Hg].
Defined.

(** ** Portrayal *)

Lemma Qltb_true p q : Qltb p q = true ↔ (p < q)%Q.
Proof.
  unfold Qltb. rewrite Qlt_alt. destruct (p ?= q)%Q; split; congruence.
Qed.

Lemma Qltb_false p q : Qltb p q = false ↔ (q <= p)%Q.
Proof.
  rewrite <- not_true_iff_false, Qltb_true. split.
  - apply Qnot_lt_le.
  - apply Qle_not_lt.
Qed.

Lemma portrayal_shape a :
  agent_portrayal a !! "Shape"
  = Some (VStr (match a with
                | PollutionCell _ _ | FactoryAgent _ _ => "rect"
                | CarAgent _ _ | TreeAgent _ _ _ => "circle"
                end)).
Proof. by destruct a. Qed.

Lemma portrayal_layer a :
  agent_portrayal a !! "Layer"
  = Some (VInt (match a with PollutionCell _ _ => 0 | _ => 1 end)).
Proof. by destruct a. Qed.

Lemma portrayal_color a :
  agent_portrayal a !! "Color"
  = Some (VStr (match a with
                | PollutionCell _ v => cell_color v
                | CarAgent _ _ => "blue"
                | FactoryAgent _ _ => "gray"
                | TreeAgent _ _ alive => if alive then "darkgreen" else "brown"
                end)).
Proof. by destruct a. Qed.

(** X11. The portrayal tells the agents apart: two agents with the same
    portrayal are of the same class, and if they are trees they are both
    alive or both dead.  Every portrayal is filled, and it is drawn on
    layer 0 exactly when the agent is a pollution cell, so that cars,
    factories and trees are drawn over the cells. *)
Theorem portrayal_separates_agents a b :
  agent_portrayal a = agent_portrayal b →
  kind_of a = kind_of b ∧
  PollutionModel.is_tree false a = PollutionModel.is_tree false b ∧
  agent_portrayal a !! "Filled" = Some (VBool true) ∧
  (agent_portrayal a !! "Layer" = Some (VInt 0) ↔ kind_of a = KCell).
Proof.
  intros H.
  pose proof (f_equal (λ d, d !! "Shape") H) as Hshape.
  pose proof (f_equal (λ d, d !! "Layer") H) as Hlayer.
  pose proof (f_equal (λ d, d !! "Color") H) as Hcolor.
  simpl in Hshape, Hlayer, Hcolor.
  rewrite !portrayal_shape in Hshape. rewrite !portrayal_layer in Hlayer.
  rewrite !portrayal_color in Hcolor.
  split; [|split; [|split]].
  - destruct a, b; simplify_eq/=; try done;
      repeat match goal with al : bool |- _ => destruct al end; done.
  - destruct a, b; simplify_eq/=; try done;
      repeat match goal with al : bool |- _ => destruct al end; done.
  - by destruct a.
  - rewrite portrayal_layer. destruct a; simpl; split; congruence.
Qed.

Lemma portrayal_separates_agents_witness :
  kind_of (TreeAgent 0 (0, 0)%Z true) = kind_of (TreeAgent 7 (1, 2)%Z true).
Proof.
  apply (portrayal_separates_agents (TreeAgent 0 (0, 0)%Z true)
                                    (TreeAgent 7 (1, 2)%Z true)).
  reflexivity.
Defined.

(** X12. The colour of a cell is green below 10, yellow from 10 up to but
    not including 20, and red from 20 on; the colour never becomes less
    alarming when the pollution grows. *)
Theorem cell_colour_is_monotone p q :
  (p <= q)%Q →
  severity (cell_color p) ≤ severity (cell_color q) ∧
  (cell_color p = "green" ↔ (p < 10)%Q) ∧
  (cell_color p = "yellow" ↔ (10 <= p ∧ p < 20)%Q) ∧
  (cell_color p = "red" ↔ (20 <= p)%Q).
Proof.
  intros Hpq. unfold cell_color.
  destruct (Qltb p 10) eqn:Hp10, (Qltb p 20) eqn:Hp20,
           (Qltb q 10) eqn:Hq10, (Qltb q 20) eqn:Hq20;
    rewrite ?Qltb_true, ?Qltb_false in *;
    (split; [try (vm_compute; lia); exfalso; lra|]);
    (split; [split; [try done; intros; lra | try done; intros; exfalso; lra]|]);
    (split; split; try done; intros; try lra; exfalso; lra).
Qed.

Lemma cell_colour_is_monotone_witness :
  (5 <= 25)%Q ∧ severity (cell_color 5) ≤ severity (cell_color 25).
Proof.
  assert (H : (5 <= 25)%Q) by (unfold Qle; simpl; lia).
  split; [exact H|]. apply (cell_colour_is_monotone 5 25 H).
Defined.

(** ** The recorded averages are bounded *)

Lemma mean_within hi l :
  (0 <= hi)%Q → Forall (λ v, 0 <= v ∧ v <= hi)%Q l →
  (0 <= mean l ∧ mean l <= hi)%Q.
Proof.
  intros Hhi Hl. destruct l as [|v l]; [simpl; split; lra|].
  destruct (foldl_Qplus_within 0 hi (v :: l) 0 Hl) as [Hsum1 Hsum2].
  fold (sum (v :: l)) in Hsum1, Hsum2.
  unfold mean. set (len := inject_Z (Z.of_nat (length (v :: l)))) in *.
  assert (Hpos : (0 < len)%Q) by (unfold len, Qlt; simpl; lia).
  split.
  - apply Qle_shift_div_l; [done|]. lra.
  - apply Qle_shift_div_r; [done|]. lra.
Qed.

Lemma run_averages_within n m m' :
  one_cell_per_position (width m) (height m) (schedule m) →
  within 0 (9 * emitted (kind_of <$> schedule m)) (schedule m) →
  Forall (λ s, 0 <= Average_Pollution s ∧
               Average_Pollution s <= 9 * emitted (kind_of <$> schedule m))%Q
         (datacollector m) →
  run n m = Ok m' →
  Forall (λ s, 0 <= Average_Pollution s ∧
               Average_Pollution s <= 9 * emitted (kind_of <$> schedule m))%Q
         (datacollector m').
Proof.
  revert m. induction n as [|n IH]; intros m Hone Hs Hd; simpl.
  - by intros [= <-].
  - intros H. apply bind_Ok in H as (m1 & H1 & H2).
    destruct (model_step_fixed _ _ H1) as (Hw & Hh & Hf).
    rewrite <- (kind_of_fixed _ _ Hf). apply IH; [| | |done].
    + rewrite Hw, Hh. by eapply one_cell_per_position_fixed.
    + rewrite (kind_of_fixed _ _ Hf).
      eapply within_mono; [| |by eapply model_step_within]; lra.
    + rewrite (kind_of_fixed _ _ Hf).
      rewrite (scheduler_step_datacollector _ _ H1). simpl.
      apply Forall_app_2; [done|]. constructor; [|done]. simpl.
      rewrite average_pollution_mean. apply mean_within.
      * pose proof (emitted_nonneg (kind_of <$> schedule m)). lra.
      * by apply within_field.
Qed.

(** X13. Every average pollution the collector has recorded, at any
    point of a run, lies between 0 and [90 c + 180 f], where [c] and [f]
    are the numbers of cars and factories. *)
Theorem recorded_averages_are_bounded w h c f t seed m0 n m :
  (0 ≤ c)%Z → (0 ≤ f)%Z →
  PollutionModel.__init__ w h c f t seed = Ok m0 →
  run n m0 = Ok m →
  Forall (λ s, 0 <= Average_Pollution s ∧
               Average_Pollution s <= 90 * inject_Z c + 180 * inject_Z f)%Q
         (datacollector m).
Proof.
  intros Hc Hf Hinit Hrun.
  pose proof (init_emitted _ _ _ _ _ _ _ Hc Hf Hinit) as HE.
  destruct (init_within _ _ _ _ _ _ _ Hinit) as [Hone0 H0].
  assert (Hd0 : datacollector m0 = []).
  { by destruct (init_Ok _ _ _ _ _ _ _ Hinit)
      as (cars & facs & trees & _ & _ & _ & _ & _ & _ & _ & ->). }
  eapply Forall_impl; [eapply (run_averages_within n m0 m Hone0); [| |exact Hrun]|].
  - eapply within_mono; [| |exact H0]; [lra|].
    pose proof (emitted_nonneg (kind_of <$> schedule m0)). lra.
  - rewrite Hd0. constructor.
  - intros s [? ?]. simpl in *. split; [done|]. rewrite HE in *. lra.
Qed.

Lemma recorded_averages_are_bounded_witness :
  (0 ≤ 0)%Z ∧ (0 ≤ 1)%Z ∧
  PollutionModel.__init__ 1 3 0 1 0 seed1 = Ok strip ∧
  ∃ m, run 2 strip = Ok m ∧
    Forall (λ s, 0 <= Average_Pollution s ∧
                 Average_Pollution s <= 90 * inject_Z 0 + 180 * inject_Z 1)%Q
           (datacollector m).
Proof.
  split; [lia|]. split; [lia|]. split; [reflexivity|].
  eexists. split; [vm_compute; reflexivity|].
  apply (recorded_averages_are_bounded 1 3 0 1 0 seed1 strip 2);
    [lia | lia | reflexivity | vm_compute; reflexivity].
Defined.
